(** * Open/R RIB policy: a shallow embedding of [openr/decision/RibPolicy.cpp]

    The development follows the source file function by function.

    - [thrift] holds the wire structures the file reads and writes
      ([thrift::RibPolicy], [thrift::RibPolicyStatement], [thrift::NextHopThrift], ...).
    - [RibPolicyStatement] and [RibPolicy] hold the two classes; a C++
      constructor that throws [thrift::OpenrError] is a function into
      [result]; a member that mutates its [RibUnicastEntry&] argument
      returns the new route next to its boolean.
    - [std::chrono::steady_clock::now()] is an explicit argument [now], a
      count of nanosecond ticks (the clock's period under libstdc++ and
      libc++); [duration_cast] to a coarser unit is [Z.quot], which
      truncates toward zero as the standard requires.
    - [std::unordered_set] is [gset]; a range-for over one visits
      [elements] of it, an order the program does not control.

    Declared outside this file and therefore parameters here: the address
    type of a next-hop, [folly::CIDRNetwork], [thrift::IpPrefix] and the
    two conversions [toIPNetwork] and [toIpPrefix].  Integer fields of the
    wire structures ([weight], [default_weight], [ttl_secs]) are signed
    32-bit fields holding a [Z]; the file does no arithmetic on weights;
    the one store of a 64-bit count into such a field, [ttl_secs] in
    [RibPolicy::toThrift], narrows with [to_int32].  Clock arithmetic is
    taken in the range where the 64-bit tick count does not overflow. *)

From Stdlib Require Import ZArith Lia.
From stdpp Require Import base option list gmap sets strings.

#[local] Open Scope Z_scope.

(** ** Wire structures *)

Module thrift.

Record OpenrError := { message : string }.

Record RibRouteActionWeight := {
  default_weight : Z;
  area_to_weight : gmap string Z;
}.

(** [set_weight] is an optional thrift field: [set_weight_ref()] is
    [Some] when it is set. *)
Record RibRouteAction := { set_weight : option RibRouteActionWeight }.

Record RibRouteMatcher (IpPrefix : Type) := {
  prefixes : option (list IpPrefix);
}.

Record RibPolicyStatement (IpPrefix : Type) := {
  name : string;
  matcher : RibRouteMatcher IpPrefix;
  action : RibRouteAction;
}.

(** [ttl_secs] is a signed 32-bit field. *)
Record RibPolicy (IpPrefix : Type) := {
  statements : list (RibPolicyStatement IpPrefix);
  ttl_secs : Z;
}.

(** Of a next-hop the file reads [area] and writes [weight]; [address]
    stands for the fields it copies untouched. *)
Record NextHopThrift (Addr : Type) := {
  address : Addr;
  weight : Z;
  area : option string;
}.

Arguments prefixes {IpPrefix} _.
Arguments Build_RibRouteMatcher {IpPrefix} _.
Arguments name {IpPrefix} _.
Arguments matcher {IpPrefix} _.
Arguments action {IpPrefix} _.
Arguments Build_RibPolicyStatement {IpPrefix} _ _ _.
Arguments statements {IpPrefix} _.
Arguments ttl_secs {IpPrefix} _.
Arguments Build_RibPolicy {IpPrefix} _ _.
Arguments address {Addr} _.
Arguments weight {Addr} _.
Arguments area {Addr} _.
Arguments Build_NextHopThrift {Addr} _ _ _.

(** [newNh = nh; newNh.weight = w]. *)
Definition with_weight {Addr} (nh : NextHopThrift Addr) (w : Z) : NextHopThrift Addr :=
  {| address := address nh; weight := w; area := area nh |}.

Definition NextHopThrift_to_tuple {Addr} (nh : NextHopThrift Addr) : Addr * Z * option string :=
  (address nh, weight nh, area nh).

Definition NextHopThrift_of_tuple {Addr} (t : Addr * Z * option string) : NextHopThrift Addr :=
  {| address := t.1.1; weight := t.1.2; area := t.2 |}.

(** Value equality of next-hops compares every field, the weight included;
    it is what makes them usable as keys of a hash set. *)
#[global] Instance NextHopThrift_eq_dec `{EqDecision Addr} : EqDecision (NextHopThrift Addr).
Proof. solve_decision. Defined.

#[global] Instance NextHopThrift_countable `{Countable Addr} : Countable (NextHopThrift Addr).
Proof.
  apply (inj_countable' NextHopThrift_to_tuple NextHopThrift_of_tuple).
  by intros [].
Defined.

End thrift.

(** ** Results of constructors and clock units *)

(** A constructor either completes ([Ok]) or throws ([Throw]); a thrown
    constructor leaves no object behind. *)
Inductive result (A : Type) : Type :=
| Ok (a : A)
| Throw (e : thrift.OpenrError).

Arguments Ok {A} _.
Arguments Throw {A} _.

Definition throws {A} (r : result A) : bool :=
  match r with Ok _ => false | Throw _ => true end.

(** [std::chrono::steady_clock::time_point], in nanosecond ticks. *)
Definition time_point : Type := Z.

Definition ticks_per_second : Z := 1000000000.
Definition ticks_per_millisecond : Z := 1000000.

(** [std::chrono::seconds(n)] added to a time point. *)
Definition seconds (n : Z) : Z := n * ticks_per_second.

(** [duration_cast<seconds>(d).count()] and
    [duration_cast<milliseconds>(d).count()]. *)
Definition duration_cast_seconds (d : Z) : Z := Z.quot d ticks_per_second.
Definition duration_cast_milliseconds (d : Z) : Z := Z.quot d ticks_per_millisecond.

(** The conversion of a 64-bit count to a signed 32-bit field: the value
    modulo 2^32 in the range from -2^31 to 2^31 - 1. *)
Definition to_int32 (z : Z) : Z := (z + 2147483648) mod 4294967296 - 2147483648.

(** [in_int32 z]: [z] is a value of a signed 32-bit field. *)
Definition in_int32 (z : Z) : Prop := -2147483648 ≤ z < 2147483648.

(** [folly::get_default(map, key, dflt)]. *)
Definition get_default (m : gmap string Z) (key : string) (dflt : Z) : Z :=
  match m !! key with
  | Some v => v
  | None => dflt
  end.

(** ** The route handed to the policy *)

Record RibUnicastEntry (CIDRNetwork Addr : Type) `{Countable Addr} := {
  prefix : CIDRNetwork;
  nexthops : gset (thrift.NextHopThrift Addr);
}.

Arguments prefix {CIDRNetwork Addr _ _} _.
Arguments nexthops {CIDRNetwork Addr _ _} _.
Arguments Build_RibUnicastEntry {CIDRNetwork Addr _ _} _ _.

(** ** RibPolicyStatement *)

Module RibPolicyStatement.
Section defs.
Context {CIDRNetwork Addr IpPrefix : Type}.
Context `{Countable CIDRNetwork, Countable Addr}.
Context (toIPNetwork : IpPrefix → CIDRNetwork) (toIpPrefix : CIDRNetwork → IpPrefix).

Record t := {
  name_ : string;
  action_ : thrift.RibRouteAction;
  prefixSet_ : gset CIDRNetwork;
}.

(** The constructor: the two presence checks in source order, then the
    loop inserting every converted prefix in the match set. *)
Definition RibPolicyStatement (stmt : thrift.RibPolicyStatement IpPrefix) : result t :=
  match thrift.set_weight (thrift.action stmt) with
  | None =>
      Throw {| thrift.message := "Missing policy_statement.action.set_weight attribute" |}
  | Some _ =>
      match thrift.prefixes (thrift.matcher stmt) with
      | None =>
          Throw {| thrift.message := "Missing policy_statement.matcher.prefixes attribute" |}
      | Some tPrefixes =>
          Ok {| name_ := thrift.name stmt;
                action_ := thrift.action stmt;
                prefixSet_ :=
                  foldl (λ acc tPrefix, {[ toIPNetwork tPrefix ]} ∪ acc) ∅ tPrefixes |}
      end
  end.

Definition toThrift (self : t) : thrift.RibPolicyStatement IpPrefix :=
  {| thrift.name := name_ self;
     thrift.action := action_ self;
     thrift.matcher :=
       {| thrift.prefixes :=
            Some (foldl (λ acc prefix, acc ++ [toIpPrefix prefix]) []
                        (elements (prefixSet_ self))) |} |}.

(** [match] is a keyword of Rocq, hence the underscore. *)
Definition match_ (self : t) (route : RibUnicastEntry CIDRNetwork Addr) : bool :=
  bool_decide (prefix route ∈ prefixSet_ self).

(** One iteration of the loop over [route.nexthops]. *)
Definition applyAction_step (weightAction : thrift.RibRouteActionWeight)
    (newNexthops : gset (thrift.NextHopThrift Addr)) (nh : thrift.NextHopThrift Addr)
    : gset (thrift.NextHopThrift Addr) :=
  let new_weight :=
    match thrift.area nh with
    | Some a =>
        get_default (thrift.area_to_weight weightAction) a
                    (thrift.default_weight weightAction)
    | None => thrift.default_weight weightAction
    end in
  if 0 <? new_weight
  then {[ thrift.with_weight nh new_weight ]} ∪ newNexthops
  else newNexthops.

(** [applyAction] returns the boolean and the route as the call leaves it;
    [None] is the abort of a failed [CHECK]. *)
Definition applyAction (self : t) (route : RibUnicastEntry CIDRNetwork Addr)
    : option (bool * RibUnicastEntry CIDRNetwork Addr) :=
  if negb (match_ self route) then Some (false, route)
  else
    match thrift.set_weight (action_ self) with
    | None => None
    | Some weightAction =>
        let newNexthops :=
          foldl (applyAction_step weightAction) ∅ (elements (nexthops route)) in
        Some (true, {| prefix := prefix route; nexthops := newNexthops |})
    end.

End defs.
End RibPolicyStatement.

Arguments RibPolicyStatement.t CIDRNetwork {_ _}.

(** ** RibPolicy *)

Module RibPolicy.
Section defs.
Context {CIDRNetwork Addr IpPrefix : Type}.
Context `{Countable CIDRNetwork, Countable Addr}.
Context (toIPNetwork : IpPrefix → CIDRNetwork) (toIpPrefix : CIDRNetwork → IpPrefix).

Record t := {
  policyStatements_ : list (RibPolicyStatement.t CIDRNetwork);
  validUntilTs_ : time_point;
}.

(** The loop [policyStatements_.emplace_back(RibPolicyStatement(statement))]:
    the first statement constructor that throws ends the construction. *)
Fixpoint construct_statements (statements : list (thrift.RibPolicyStatement IpPrefix))
    (policyStatements : list (RibPolicyStatement.t CIDRNetwork))
    : result (list (RibPolicyStatement.t CIDRNetwork)) :=
  match statements with
  | [] => Ok policyStatements
  | statement :: rest =>
      match RibPolicyStatement.RibPolicyStatement toIPNetwork statement with
      | Throw e => Throw e
      | Ok s => construct_statements rest (policyStatements ++ [s])
      end
  end.

(** The constructor, run at clock reading [now]. *)
Definition RibPolicy (now : time_point) (policy : thrift.RibPolicy IpPrefix) : result t :=
  let validUntilTs := now + seconds (thrift.ttl_secs policy) in
  match thrift.statements policy with
  | [] => Throw {| thrift.message := "Missing policy.statements attribute" |}
  | _ :: _ =>
      match construct_statements (thrift.statements policy) [] with
      | Throw e => Throw e
      | Ok policyStatements =>
          Ok {| policyStatements_ := policyStatements; validUntilTs_ := validUntilTs |}
      end
  end.

(** [toThrift], run at clock reading [now]; the count of seconds is a
    64-bit value and [policy.ttl_secs] a signed 32-bit field. *)
Definition toThrift (self : t) (now : time_point) : thrift.RibPolicy IpPrefix :=
  {| thrift.statements :=
       foldl (λ acc statement, acc ++ [RibPolicyStatement.toThrift toIpPrefix statement])
             [] (policyStatements_ self);
     thrift.ttl_secs := to_int32 (duration_cast_seconds (validUntilTs_ self - now)) |}.

(** The returned count of milliseconds. *)
Definition getTtlDuration (self : t) (now : time_point) : Z :=
  duration_cast_milliseconds (validUntilTs_ self - now).

Definition isActive (self : t) (now : time_point) : bool :=
  0 <? getTtlDuration self now.

Fixpoint match_loop (policyStatements : list (RibPolicyStatement.t CIDRNetwork))
    (route : RibUnicastEntry CIDRNetwork Addr) : bool :=
  match policyStatements with
  | [] => false
  | statement :: rest =>
      if RibPolicyStatement.match_ statement route then true
      else match_loop rest route
  end.

Definition match_ (self : t) (route : RibUnicastEntry CIDRNetwork Addr) : bool :=
  match_loop (policyStatements_ self) route.

(** The loop of [applyAction]: every statement is handed the route as the
    statements before it left it. *)
Fixpoint applyAction_loop (policyStatements : list (RibPolicyStatement.t CIDRNetwork))
    (route : RibUnicastEntry CIDRNetwork Addr)
    : option (bool * RibUnicastEntry CIDRNetwork Addr) :=
  match policyStatements with
  | [] => Some (false, route)
  | statement :: rest =>
      match RibPolicyStatement.applyAction statement route with
      | None => None
      | Some (true, route') => Some (true, route')
      | Some (false, route') => applyAction_loop rest route'
      end
  end.

Definition applyAction (self : t) (route : RibUnicastEntry CIDRNetwork Addr)
    : option (bool * RibUnicastEntry CIDRNetwork Addr) :=
  applyAction_loop (policyStatements_ self) route.

End defs.
End RibPolicy.

Arguments RibPolicy.t CIDRNetwork {_ _}.

(** ** The weight rule in the words of the specification

    [candidateWeight] and [reweighted] are written from the specification's
    description of the action, not from the loop; the theorems below
    compare the loop with them. *)

Section weight_rule.
Context {Addr : Type} `{Countable Addr}.

(** The mapped weight when the next-hop has an area that is a key of the
    mapping, the default weight otherwise. *)
Definition candidateWeight (w : thrift.RibRouteActionWeight)
    (nh : thrift.NextHopThrift Addr) : Z :=
  match thrift.area nh with
  | Some a =>
      match thrift.area_to_weight w !! a with
      | Some mapped => mapped
      | None => thrift.default_weight w
      end
  | None => thrift.default_weight w
  end.

(** The copy of the next-hop that carries its candidate weight. *)
Definition reweigh (w : thrift.RibRouteActionWeight)
    (nh : thrift.NextHopThrift Addr) : thrift.NextHopThrift Addr :=
  {| thrift.address := thrift.address nh;
     thrift.weight := candidateWeight w nh;
     thrift.area := thrift.area nh |}.

(** The set of reweighted copies of the next-hops with a positive
    candidate weight. *)
Definition reweighted (w : thrift.RibRouteActionWeight)
    (nhs : gset (thrift.NextHopThrift Addr)) : gset (thrift.NextHopThrift Addr) :=
  set_map (reweigh w) (filter (λ nh, 0 < candidateWeight w nh) nhs).

(** The same with "positive" replaced by "not zero". *)
Definition reweighted_nonzero (w : thrift.RibRouteActionWeight)
    (nhs : gset (thrift.NextHopThrift Addr)) : gset (thrift.NextHopThrift Addr) :=
  set_map (reweigh w) (filter (λ nh, candidateWeight w nh ≠ 0) nhs).

End weight_rule.

(** [constructed toIPNetwork sdef stmt]: the statement constructor completes
    on the definition [sdef] with the object [stmt]. *)
Definition constructed {CIDRNetwork IpPrefix : Type} `{Countable CIDRNetwork}
    (toIPNetwork : IpPrefix → CIDRNetwork)
    (sdef : thrift.RibPolicyStatement IpPrefix)
    (stmt : RibPolicyStatement.t CIDRNetwork) : Prop :=
  RibPolicyStatement.RibPolicyStatement toIPNetwork sdef = Ok stmt.

(** ** A concrete instance: IPv4 networks

    Addresses are 32-bit numbers, a network is an address with a mask
    length, and [toIPNetwork] clears the host bits.  Next-hop addresses are
    strings. *)

Module ipv4.

Definition IpPrefix : Type := N * N.
Definition CIDRNetwork : Type := N * N.

#[global] Instance CIDRNetwork_eq_dec : EqDecision CIDRNetwork.
Proof. unfold CIDRNetwork. apply _. Defined.

#[global] Instance CIDRNetwork_countable : Countable CIDRNetwork.
Proof. unfold CIDRNetwork. apply _. Defined.

Definition netmask (len : N) : N := N.shiftl (N.ones len) (32 - len).

Definition toIPNetwork (p : IpPrefix) : CIDRNetwork := (N.land p.1 (netmask p.2), p.2).
Definition toIpPrefix (n : CIDRNetwork) : IpPrefix := n.

(** 192.168.0.0/16, 192.168.1.0/24 and 10.0.0.0/8. *)
Definition net_192_168 : IpPrefix := (3232235520%N, 16%N).
Definition net_192_168_1 : IpPrefix := (3232235776%N, 24%N).
Definition net_10 : IpPrefix := (167772160%N, 8%N).

Definition east_only : thrift.RibRouteActionWeight :=
  {| thrift.default_weight := 0; thrift.area_to_weight := {[ "east"%string := 10 ]} |}.

Definition flat_one : thrift.RibRouteActionWeight :=
  {| thrift.default_weight := 1; thrift.area_to_weight := ∅ |}.

Definition stmt_east : thrift.RibPolicyStatement IpPrefix :=
  {| thrift.name := "east";
     thrift.matcher := {| thrift.prefixes := Some [net_192_168] |};
     thrift.action := {| thrift.set_weight := Some east_only |} |}.

Definition stmt_flat : thrift.RibPolicyStatement IpPrefix :=
  {| thrift.name := "flat";
     thrift.matcher := {| thrift.prefixes := Some [net_192_168; net_10] |};
     thrift.action := {| thrift.set_weight := Some flat_one |} |}.

(** A statement whose prefix list is present and empty. *)
Definition stmt_no_prefix : thrift.RibPolicyStatement IpPrefix :=
  {| thrift.name := "none";
     thrift.matcher := {| thrift.prefixes := Some [] |};
     thrift.action := {| thrift.set_weight := Some flat_one |} |}.

Definition policy_30s : thrift.RibPolicy IpPrefix :=
  {| thrift.statements := [stmt_east; stmt_flat]; thrift.ttl_secs := 30 |}.

Definition policy_expired : thrift.RibPolicy IpPrefix :=
  {| thrift.statements := [stmt_east]; thrift.ttl_secs := -5 |}.

Definition nh_east : thrift.NextHopThrift string :=
  {| thrift.address := "fe80::1"; thrift.weight := 1; thrift.area := Some "east"%string |}.

Definition nh_west : thrift.NextHopThrift string :=
  {| thrift.address := "fe80::2"; thrift.weight := 1; thrift.area := Some "west"%string |}.

Definition route_192_168 : RibUnicastEntry CIDRNetwork string :=
  {| prefix := toIPNetwork net_192_168; nexthops := {[ nh_east; nh_west ]} |}.

Definition route_192_168_1 : RibUnicastEntry CIDRNetwork string :=
  {| prefix := toIPNetwork net_192_168_1; nexthops := {[ nh_east; nh_west ]} |}.

(** The objects the constructors build from the definitions above; the
    policy is constructed at clock reading 0. *)
Definition east : RibPolicyStatement.t CIDRNetwork :=
  {| RibPolicyStatement.name_ := "east";
     RibPolicyStatement.action_ := {| thrift.set_weight := Some east_only |};
     RibPolicyStatement.prefixSet_ := {[ toIPNetwork net_192_168 ]} |}.

Definition flat : RibPolicyStatement.t CIDRNetwork :=
  {| RibPolicyStatement.name_ := "flat";
     RibPolicyStatement.action_ := {| thrift.set_weight := Some flat_one |};
     RibPolicyStatement.prefixSet_ := {[ toIPNetwork net_192_168; toIPNetwork net_10 ]} |}.

Definition matches_nothing : RibPolicyStatement.t CIDRNetwork :=
  {| RibPolicyStatement.name_ := "none";
     RibPolicyStatement.action_ := {| thrift.set_weight := Some flat_one |};
     RibPolicyStatement.prefixSet_ := ∅ |}.

Definition installed_30s : RibPolicy.t CIDRNetwork :=
  {| RibPolicy.policyStatements_ := [east; flat];
     RibPolicy.validUntilTs_ := 30000000000 |}.

Definition installed_expired : RibPolicy.t CIDRNetwork :=
  {| RibPolicy.policyStatements_ := [east];
     RibPolicy.validUntilTs_ := -5000000000 |}.

(** A policy with the least [ttl_secs] of the 32-bit field, and the object
    constructed from it at clock reading 0. *)
Definition policy_min_ttl : thrift.RibPolicy IpPrefix :=
  {| thrift.statements := [stmt_east]; thrift.ttl_secs := -2147483648 |}.

Definition installed_min_ttl : RibPolicy.t CIDRNetwork :=
  {| RibPolicy.policyStatements_ := [east];
     RibPolicy.validUntilTs_ := -2147483648000000000 |}.

(** [stmt_flat] with its prefixes in another order and one repeated. *)
Definition stmt_flat_reordered : thrift.RibPolicyStatement IpPrefix :=
  {| thrift.name := "flat";
     thrift.matcher := {| thrift.prefixes := Some [net_10; net_192_168; net_10] |};
     thrift.action := {| thrift.set_weight := Some flat_one |} |}.

(** [route_192_168] with other weights on its next-hops. *)
Definition route_192_168_heavy : RibUnicastEntry CIDRNetwork string :=
  {| prefix := toIPNetwork net_192_168;
     nexthops := {[ thrift.with_weight nh_east 7; thrift.with_weight nh_west 9 ]} |}.


End ipv4.

(** * Properties *)

(** ** Loops as closed forms *)

Section loops.
Context {A B : Type} `{Countable B}.

Lemma foldl_insert_set (f : A → B) (l : list A) (X : gset B) :
  foldl (λ acc x, {[ f x ]} ∪ acc) X l = X ∪ list_to_set (f <$> l).
Proof.
  revert X. induction l as [|a l IH]; intros X; simpl.
  - by rewrite (right_id_L ∅ (∪)).
  - rewrite IH. by rewrite (comm_L (∪) {[f a]} X), <- (assoc_L (∪)).
Qed.

Lemma foldl_emplace_back {C : Type} (g : A → C) (l : list A) (acc : list C) :
  foldl (λ acc x, acc ++ [g x]) acc l = acc ++ (g <$> l).
Proof.
  revert acc. induction l as [|a l IH]; intros acc; simpl.
  - by rewrite app_nil_r.
  - rewrite IH. by rewrite <- app_assoc.
Qed.

Lemma size_list_to_set_le (l : list B) :
  (size (list_to_set (C := gset B) l) ≤ length l)%nat.
Proof.
  induction l as [|b l IH].
  - by rewrite list_to_set_nil, size_empty.
  - rewrite list_to_set_cons. cbn [length].
    destruct (decide (b ∈ list_to_set (C := gset B) l)) as [Hin|Hnin].
    + replace ({[b]} ∪ list_to_set l) with (list_to_set (C := gset B) l); [lia|].
      apply set_eq. intros x. rewrite elem_of_union, elem_of_singleton.
      split; [by right|]. by intros [->|?].
    + rewrite size_union, size_singleton; [lia|].
      intros x ->%elem_of_singleton. done.
Qed.

End loops.

(** ** The statement *)

Section statement.
Context {CIDRNetwork Addr IpPrefix : Type}.
Context `{Countable CIDRNetwork, Countable Addr}.
Context (toIPNetwork : IpPrefix → CIDRNetwork) (toIpPrefix : CIDRNetwork → IpPrefix).

Implicit Types (def : thrift.RibPolicyStatement IpPrefix).
Implicit Types (stmt : RibPolicyStatement.t CIDRNetwork).
Implicit Types (route : RibUnicastEntry CIDRNetwork Addr).
Implicit Types (w : thrift.RibRouteActionWeight).
Implicit Types (nh : thrift.NextHopThrift Addr).

Lemma get_default_candidateWeight w nh :
  match thrift.area nh with
  | Some a => get_default (thrift.area_to_weight w) a (thrift.default_weight w)
  | None => thrift.default_weight w
  end = candidateWeight w nh.
Proof. unfold candidateWeight, get_default. by destruct (thrift.area nh). Qed.

Lemma applyAction_step_spec w (acc : gset (thrift.NextHopThrift Addr)) nh :
  RibPolicyStatement.applyAction_step w acc nh =
  if decide (0 < candidateWeight w nh) then {[ reweigh w nh ]} ∪ acc else acc.
Proof.
  unfold RibPolicyStatement.applyAction_step.
  rewrite get_default_candidateWeight.
  destruct (Z.ltb_spec 0 (candidateWeight w nh)); case_decide; try lia; done.
Qed.

Lemma elem_of_applyAction_fold w (l : list (thrift.NextHopThrift Addr))
    (acc : gset (thrift.NextHopThrift Addr)) x :
  x ∈ foldl (RibPolicyStatement.applyAction_step w) acc l ↔
  x ∈ acc ∨ ∃ nh, nh ∈ l ∧ 0 < candidateWeight w nh ∧ x = reweigh w nh.
Proof.
  revert acc. induction l as [|a l IH]; intros acc; simpl.
  - split; [by left|]. intros [?|(nh & Hin & _)]; [done|]. by apply elem_of_nil in Hin.
  - rewrite IH, applyAction_step_spec. case_decide as Hpos.
    + rewrite elem_of_union, elem_of_singleton. split.
      * intros [[->|?]|(nh & ? & ? & ?)]; [right|by left|right].
        -- exists a. split; [by left|done].
        -- exists nh. split; [by right|done].
      * intros [?|(nh & [->|?]%elem_of_cons & ? & ->)];
          [by left; right|by left; left|right; by exists nh].
    + split.
      * intros [?|(nh & ? & ? & ?)]; [by left|right].
        exists nh. split; [by right|done].
      * intros [?|(nh & [->|?]%elem_of_cons & ? & ->)]; [by left|done|right; by exists nh].
Qed.

Lemma elem_of_reweighted w (nhs : gset (thrift.NextHopThrift Addr)) x :
  x ∈ reweighted w nhs ↔
  ∃ nh, nh ∈ nhs ∧ 0 < candidateWeight w nh ∧ x = reweigh w nh.
Proof.
  unfold reweighted. rewrite elem_of_map. split.
  - intros (nh & -> & [? ?]%elem_of_filter). by exists nh.
  - intros (nh & ? & ? & ->). exists nh. split; [done|]. by apply elem_of_filter.
Qed.

(** The loop of [applyAction] over the elements of the set builds
    [reweighted]. *)
Lemma applyAction_fold_reweighted w (nhs : gset (thrift.NextHopThrift Addr)) :
  foldl (RibPolicyStatement.applyAction_step w) ∅ (elements nhs) = reweighted w nhs.
Proof.
  apply set_eq. intros x.
  rewrite elem_of_applyAction_fold, elem_of_reweighted. split.
  - intros [?|(nh & ?%elem_of_elements & ?)]; [set_solver|]. by exists nh.
  - intros (nh & ? & ?). right. exists nh. by rewrite elem_of_elements.
Qed.

Lemma candidateWeight_reweigh w nh :
  candidateWeight w (reweigh w nh) = candidateWeight w nh.
Proof. done. Qed.

Lemma weight_reweigh w nh : thrift.weight (reweigh w nh) = candidateWeight w nh.
Proof. done. Qed.

Lemma reweighted_positive w (nhs : gset (thrift.NextHopThrift Addr)) x :
  x ∈ reweighted w nhs → 0 < thrift.weight x ∧ candidateWeight w x = thrift.weight x.
Proof. intros (nh & _ & ? & ->)%elem_of_reweighted. by rewrite candidateWeight_reweigh. Qed.

Lemma reweighted_nonneg w (nhs : gset (thrift.NextHopThrift Addr)) :
  (∀ nh, nh ∈ nhs → 0 ≤ candidateWeight w nh) →
  reweighted w nhs = reweighted_nonzero w nhs.
Proof.
  intros Hnn. unfold reweighted, reweighted_nonzero. f_equal.
  apply set_eq. intros nh. rewrite !elem_of_filter.
  split; intros [Hw Hin]; (split; [|done]); specialize (Hnn nh Hin); lia.
Qed.

Lemma reweighted_size w (nhs : gset (thrift.NextHopThrift Addr)) :
  (size (reweighted w nhs) ≤ size nhs)%nat.
Proof.
  unfold reweighted, set_map.
  etrans; [apply size_list_to_set_le|].
  rewrite length_fmap. change (length (elements ?X)) with (size X).
  apply subseteq_size. intros nh. rewrite elem_of_filter. tauto.
Qed.

(** What a completed constructor has seen and stored. *)
Lemma RibPolicyStatement_Ok_inv def stmt :
  RibPolicyStatement.RibPolicyStatement toIPNetwork def = Ok stmt →
  ∃ w tPrefixes,
    thrift.set_weight (thrift.action def) = Some w ∧
    thrift.prefixes (thrift.matcher def) = Some tPrefixes ∧
    stmt = {| RibPolicyStatement.name_ := thrift.name def;
              RibPolicyStatement.action_ := thrift.action def;
              RibPolicyStatement.prefixSet_ := list_to_set (toIPNetwork <$> tPrefixes) |}.
Proof.
  unfold RibPolicyStatement.RibPolicyStatement.
  destruct (thrift.set_weight (thrift.action def)) as [w|]; [|done].
  destruct (thrift.prefixes (thrift.matcher def)) as [l|]; [|done].
  intros [= <-]. exists w, l. repeat split.
  by rewrite foldl_insert_set, (left_id_L ∅ (∪)).
Qed.

Lemma RibPolicyStatement_throws def :
  throws (RibPolicyStatement.RibPolicyStatement toIPNetwork def) = true ↔
  thrift.set_weight (thrift.action def) = None ∨
  thrift.prefixes (thrift.matcher def) = None.
Proof.
  unfold RibPolicyStatement.RibPolicyStatement.
  destruct (thrift.set_weight (thrift.action def));
    destruct (thrift.prefixes (thrift.matcher def)); simpl;
    (split; [intros ?; first [done | by right | by left] | by intros [?|?]]).
Qed.

Lemma match_true stmt route :
  RibPolicyStatement.match_ stmt route = true ↔
  prefix route ∈ RibPolicyStatement.prefixSet_ stmt.
Proof. unfold RibPolicyStatement.match_. by rewrite bool_decide_eq_true. Qed.

Lemma match_false stmt route :
  RibPolicyStatement.match_ stmt route = false ↔
  prefix route ∉ RibPolicyStatement.prefixSet_ stmt.
Proof. unfold RibPolicyStatement.match_. by rewrite bool_decide_eq_false. Qed.

Lemma applyAction_no_match stmt route :
  prefix route ∉ RibPolicyStatement.prefixSet_ stmt →
  RibPolicyStatement.applyAction stmt route = Some (false, route).
Proof.
  intros Hm%match_false. unfold RibPolicyStatement.applyAction. by rewrite Hm.
Qed.

Lemma applyAction_match stmt route w :
  prefix route ∈ RibPolicyStatement.prefixSet_ stmt →
  thrift.set_weight (RibPolicyStatement.action_ stmt) = Some w →
  RibPolicyStatement.applyAction stmt route =
    Some (true, {| prefix := prefix route; nexthops := reweighted w (nexthops route) |}).
Proof.
  intros Hm%match_true Hw. unfold RibPolicyStatement.applyAction.
  by rewrite Hm, Hw, applyAction_fold_reweighted.
Qed.

(** C1. On a route whose prefix is in the statement's prefix set,
    [applyAction] of a constructed statement returns true and replaces the
    next-hops by the set of copies reweighted to their candidate weight
    (the mapped weight of the next-hop's area when it has one that is a key
    of the mapping, the default weight otherwise), keeping the next-hops
    whose candidate weight is positive: an element is in the result exactly
    when it has the address and area of such a next-hop and its candidate
    weight as weight, every kept next-hop has its copy there, every weight
    in the result is the candidate weight and positive, a next-hop with
    candidate weight 0 is absent (itself and as a zero-weight copy), with
    weights that are never negative the kept next-hops are those with a
    non-zero candidate weight, and copies that become equal are one
    element, so the result has at most as many elements as the original. *)
Theorem applyAction_reweighs_matching_route def stmt route :
  RibPolicyStatement.RibPolicyStatement toIPNetwork def = Ok stmt →
  prefix route ∈ RibPolicyStatement.prefixSet_ stmt →
  ∃ w,
    thrift.set_weight (thrift.action def) = Some w ∧
    RibPolicyStatement.applyAction stmt route =
      Some (true, {| prefix := prefix route;
                     nexthops := reweighted w (nexthops route) |}) ∧
    (∀ x, x ∈ reweighted w (nexthops route) ↔
          ∃ nh, nh ∈ nexthops route ∧ 0 < candidateWeight w nh ∧
                x = {| thrift.address := thrift.address nh;
                       thrift.weight := candidateWeight w nh;
                       thrift.area := thrift.area nh |}) ∧
    (∀ nh, nh ∈ nexthops route → 0 < candidateWeight w nh →
           ∃ x, x ∈ reweighted w (nexthops route) ∧
                thrift.address x = thrift.address nh ∧
                thrift.area x = thrift.area nh ∧
                thrift.weight x = candidateWeight w nh) ∧
    (∀ x, x ∈ reweighted w (nexthops route) →
          thrift.weight x = candidateWeight w x ∧ 0 < thrift.weight x) ∧
    (∀ nh, candidateWeight w nh = 0 →
           (nh ∉ reweighted w (nexthops route)) ∧
           ({| thrift.address := thrift.address nh;
               thrift.weight := 0;
               thrift.area := thrift.area nh |} ∉ reweighted w (nexthops route))) ∧
    ((∀ nh, nh ∈ nexthops route → 0 ≤ candidateWeight w nh) →
     reweighted w (nexthops route) = reweighted_nonzero w (nexthops route)) ∧
    (size (reweighted w (nexthops route)) ≤ size (nexthops route))%nat.
Proof.
  intros (w & l & Hw & _ & ->)%RibPolicyStatement_Ok_inv Hin.
  exists w. split; [done|]. split; [by apply applyAction_match|].
  split; [apply elem_of_reweighted|].
  split.
  { intros nh Hnh Hpos. exists (reweigh w nh).
    split; [apply elem_of_reweighted; by exists nh|done]. }
  split.
  { intros x [Hpos Heq]%reweighted_positive. by rewrite Heq. }
  split; [|split; [apply reweighted_nonneg|apply reweighted_size]].
  intros nh Hz. split; intros [Hpos Heq]%reweighted_positive.
  - lia.
  - simpl in Hpos. lia.
Qed.

(** C7. [applyAction] of a constructed statement returns, never changes
    the route's prefix, and on a route whose prefix is not in the prefix
    set returns false with the route as it was. *)
Theorem applyAction_frame def stmt route :
  RibPolicyStatement.RibPolicyStatement toIPNetwork def = Ok stmt →
  ∃ b route',
    RibPolicyStatement.applyAction stmt route = Some (b, route') ∧
    prefix route' = prefix route ∧
    (prefix route ∉ RibPolicyStatement.prefixSet_ stmt → b = false ∧ route' = route).
Proof.
  intros (w & l & Hw & _ & Hstmt)%RibPolicyStatement_Ok_inv.
  destruct (decide (prefix route ∈ RibPolicyStatement.prefixSet_ stmt)) as [Hin|Hnin].
  - eexists _, _. split; [apply applyAction_match; [done|by subst]|]. by split.
  - exists false, route. split; [by apply applyAction_no_match|]. by split.
Qed.

(** C8 (amended). With a weight action present, the constructor asks for
    the prefixes field to be present and for nothing more: without the
    field it throws the missing-prefixes error; with the field it
    completes, the prefix set holding the converted prefixes, and with a
    present but empty list the statement has an empty prefix set and
    matches no route. *)
Theorem statement_requires_prefixes_field def w :
  thrift.set_weight (thrift.action def) = Some w →
  (thrift.prefixes (thrift.matcher def) = None →
   RibPolicyStatement.RibPolicyStatement toIPNetwork def =
     Throw {| thrift.message := "Missing policy_statement.matcher.prefixes attribute" |}) ∧
  (∀ tPrefixes, thrift.prefixes (thrift.matcher def) = Some tPrefixes →
     ∃ stmt, RibPolicyStatement.RibPolicyStatement toIPNetwork def = Ok stmt ∧
             RibPolicyStatement.prefixSet_ stmt = list_to_set (toIPNetwork <$> tPrefixes)) ∧
  (thrift.prefixes (thrift.matcher def) = Some [] →
     ∃ stmt, RibPolicyStatement.RibPolicyStatement toIPNetwork def = Ok stmt ∧
             RibPolicyStatement.prefixSet_ stmt = ∅ ∧
             ∀ route, RibPolicyStatement.match_ stmt route = false).
Proof.
  intros Hw. unfold RibPolicyStatement.RibPolicyStatement. rewrite Hw.
  split; [by intros ->|]. split.
  - intros l ->. eexists. split; [done|]. simpl.
    by rewrite foldl_insert_set, (left_id_L ∅ (∪)).
  - intros ->. eexists. split; [done|]. split; [done|].
    intros route. apply match_false. simpl. apply not_elem_of_empty.
Qed.

End statement.

(** ** Clock arithmetic *)

(** [duration_cast] by a constant tick ratio: linear facts of truncating
    division. *)
Ltac quot_ticks :=
  unfold in_int32, duration_cast_milliseconds, duration_cast_seconds, seconds,
    ticks_per_millisecond, ticks_per_second in *;
  Z.to_euclidean_division_equations; lia.

Lemma to_int32_in_range (z : Z) : in_int32 z → to_int32 z = z.
Proof. unfold in_int32, to_int32. intros Hz. rewrite Z.mod_small; lia. Qed.


Lemma milliseconds_pos (d : Z) :
  0 < duration_cast_milliseconds d ↔ ticks_per_millisecond ≤ d.
Proof. quot_ticks. Qed.

Lemma milliseconds_neg (d : Z) :
  duration_cast_milliseconds d < 0 ↔ d ≤ - ticks_per_millisecond.
Proof. quot_ticks. Qed.

Lemma milliseconds_mono (d1 d2 : Z) :
  d1 ≤ d2 → duration_cast_milliseconds d1 ≤ duration_cast_milliseconds d2.
Proof. quot_ticks. Qed.

Lemma milliseconds_apart (d1 d2 : Z) :
  d1 + 2 * ticks_per_millisecond ≤ d2 →
  duration_cast_milliseconds d1 < duration_cast_milliseconds d2.
Proof. quot_ticks. Qed.

Lemma seconds_mono (d1 d2 : Z) :
  d1 ≤ d2 → duration_cast_seconds d1 ≤ duration_cast_seconds d2.
Proof. quot_ticks. Qed.

Lemma seconds_apart (d1 d2 : Z) :
  d1 + 2 * ticks_per_second ≤ d2 →
  duration_cast_seconds d1 < duration_cast_seconds d2.
Proof. quot_ticks. Qed.

(** ** The policy *)

Section policy.
Context {CIDRNetwork Addr IpPrefix : Type}.
Context `{Countable CIDRNetwork, Countable Addr}.
Context (toIPNetwork : IpPrefix → CIDRNetwork) (toIpPrefix : CIDRNetwork → IpPrefix).

Implicit Types (sdef : thrift.RibPolicyStatement IpPrefix).
Implicit Types (def : thrift.RibPolicy IpPrefix).
Implicit Types (stmt : RibPolicyStatement.t CIDRNetwork).
Implicit Types (ss : list (RibPolicyStatement.t CIDRNetwork)).
Implicit Types (p : RibPolicy.t CIDRNetwork).
Implicit Types (route : RibUnicastEntry CIDRNetwork Addr).
Implicit Types (now : time_point).

Lemma construct_statements_Ok (l : list (thrift.RibPolicyStatement IpPrefix)) ss r :
  RibPolicy.construct_statements toIPNetwork l ss = Ok r ↔
  ∃ new, r = ss ++ new ∧ Forall2 (constructed toIPNetwork) l new.
Proof.
  revert ss. induction l as [|d l IH]; intros ss; simpl.
  - split.
    + intros [= <-]. exists []. by rewrite app_nil_r.
    + intros (new & -> & ->%Forall2_nil_inv_l). by rewrite app_nil_r.
  - destruct (RibPolicyStatement.RibPolicyStatement toIPNetwork d) as [s|e] eqn:Hd.
    + rewrite IH. split.
      * intros (new & -> & Hnew). exists (s :: new).
        split; [by rewrite <- app_assoc|]. by constructor.
      * intros (new & -> & (s' & new' & Hs' & Hnew' & ->)%Forall2_cons_inv_l).
        unfold constructed in Hs'. assert (s' = s) as -> by congruence.
        exists new'. split; [by rewrite <- app_assoc|done].
    + split; [done|].
      intros (new & _ & (s' & new' & Hs' & _)%Forall2_cons_inv_l).
      unfold constructed in Hs'. congruence.
Qed.

Lemma construct_statements_Throw (l : list (thrift.RibPolicyStatement IpPrefix)) ss e :
  RibPolicy.construct_statements toIPNetwork l ss = Throw e ↔
  ∃ l1 d l2, l = l1 ++ d :: l2 ∧
    Forall (λ d', throws (RibPolicyStatement.RibPolicyStatement toIPNetwork d') = false) l1 ∧
    RibPolicyStatement.RibPolicyStatement toIPNetwork d = Throw e.
Proof.
  revert ss. induction l as [|d l IH]; intros ss; simpl.
  - split; [done|]. intros (l1 & d & l2 & Hl & _). by destruct l1.
  - destruct (RibPolicyStatement.RibPolicyStatement toIPNetwork d) as [s|e'] eqn:Hd.
    + rewrite IH. split.
      * intros (l1 & d' & l2 & -> & Hl1 & Hd'). exists (d :: l1), d', l2.
        split; [done|]. split; [|done]. constructor; [by rewrite Hd|done].
      * intros (l1 & d' & l2 & Hl & Hl1 & Hd').
        destruct l1 as [|d1 l1]; simpl in Hl; injection Hl as -> ->; [congruence|].
        exists l1, d', l2. split; [done|]. split; [|done]. by inversion Hl1.
    + split.
      * intros [= ->]. by exists [], d, l.
      * intros (l1 & d' & l2 & Hl & Hl1 & Hd').
        destruct l1 as [|d1 l1]; simpl in Hl; injection Hl as -> ->; [congruence|].
        inversion Hl1 as [|? ? Hd1 ?]; subst. by rewrite Hd in Hd1.
Qed.

Lemma RibPolicy_Ok now def p :
  RibPolicy.RibPolicy toIPNetwork now def = Ok p ↔
  thrift.statements def ≠ [] ∧
  Forall2 (constructed toIPNetwork) (thrift.statements def) (RibPolicy.policyStatements_ p) ∧
  RibPolicy.validUntilTs_ p = now + seconds (thrift.ttl_secs def).
Proof.
  unfold RibPolicy.RibPolicy.
  destruct (thrift.statements def) as [|d l] eqn:Hl; [by split; [|intros [? _]]|].
  destruct (RibPolicy.construct_statements toIPNetwork (d :: l) []) as [r|e] eqn:Hc.
  - apply construct_statements_Ok in Hc as (new & -> & Hnew). simpl in Hnew. split.
    + by intros [= <-].
    + intros (_ & Hp & Hv). destruct p as [ps v]; simpl in *. subst v.
      do 2 f_equal. clear -Hnew Hp.
      revert Hp Hnew. generalize (d :: l). intros l0 Hp Hnew.
      revert ps Hp. induction Hnew as [|?? ?? Hx ? IH]; intros ps Hp.
      * by apply Forall2_nil_inv_l in Hp.
      * apply Forall2_cons_inv_l in Hp as (s' & ps' & Hs' & Hps' & ->).
        unfold constructed in *. f_equal; [congruence|by apply IH].
  - split; [done|]. intros (_ & Hp & _).
    assert (RibPolicy.construct_statements toIPNetwork (d :: l) [] =
            Ok (RibPolicy.policyStatements_ p)) as Hok.
    { apply construct_statements_Ok. by exists (RibPolicy.policyStatements_ p). }
    congruence.
Qed.

Lemma RibPolicy_throws now def :
  throws (RibPolicy.RibPolicy toIPNetwork now def) = true ↔
  thrift.statements def = [] ∨
  ∃ sdef, sdef ∈ thrift.statements def ∧
          throws (RibPolicyStatement.RibPolicyStatement toIPNetwork sdef) = true.
Proof.
  unfold RibPolicy.RibPolicy.
  destruct (thrift.statements def) as [|d l] eqn:Hl; [by split; [left|]|].
  destruct (RibPolicy.construct_statements toIPNetwork (d :: l) []) as [r|e] eqn:Hc; simpl.
  - split; [done|]. intros [?|(sdef & Hin & Hthrow)]; [done|].
    apply construct_statements_Ok in Hc as (new & _ & Hnew).
    revert Hin Hnew. generalize (d :: l). intros l0 Hin Hnew.
    induction Hnew as [|?? ?? Hx ? IH]; [by apply elem_of_nil in Hin|].
    apply elem_of_cons in Hin as [->|?]; [|by apply IH].
    unfold constructed in Hx. by rewrite Hx in Hthrow.
  - split; [|done]. intros _. right.
    apply construct_statements_Throw in Hc as (l1 & d' & l2 & -> & _ & Hd').
    exists d'. split; [|by rewrite Hd'].
    apply elem_of_app. right. by left.
Qed.

(** C3. The constructors throw for the missing fields and for nothing
    else: the statement constructor throws exactly when the weight action
    or the prefixes field is missing, the policy constructor exactly when
    the statement list is empty or a statement's constructor throws, and
    then with the error of the first statement that throws; a constructor
    that throws yields no object. *)
Theorem construction_throws_exactly_for_missing_fields :
  (∀ sdef,
     throws (RibPolicyStatement.RibPolicyStatement toIPNetwork sdef) = true ↔
     thrift.set_weight (thrift.action sdef) = None ∨
     thrift.prefixes (thrift.matcher sdef) = None) ∧
  (∀ sdef,
     thrift.set_weight (thrift.action sdef) = None →
     RibPolicyStatement.RibPolicyStatement toIPNetwork sdef =
       Throw {| thrift.message := "Missing policy_statement.action.set_weight attribute" |}) ∧
  (∀ sdef,
     thrift.set_weight (thrift.action sdef) ≠ None →
     thrift.prefixes (thrift.matcher sdef) = None →
     RibPolicyStatement.RibPolicyStatement toIPNetwork sdef =
       Throw {| thrift.message := "Missing policy_statement.matcher.prefixes attribute" |}) ∧
  (∀ now def,
     thrift.statements def = [] →
     RibPolicy.RibPolicy toIPNetwork now def =
       Throw {| thrift.message := "Missing policy.statements attribute" |}) ∧
  (∀ now def,
     throws (RibPolicy.RibPolicy toIPNetwork now def) = true ↔
     thrift.statements def = [] ∨
     ∃ sdef, sdef ∈ thrift.statements def ∧
             throws (RibPolicyStatement.RibPolicyStatement toIPNetwork sdef) = true) ∧
  (∀ now def before sdef after e,
     thrift.statements def = before ++ sdef :: after →
     (∀ d, d ∈ before →
           throws (RibPolicyStatement.RibPolicyStatement toIPNetwork d) = false) →
     RibPolicyStatement.RibPolicyStatement toIPNetwork sdef = Throw e →
     RibPolicy.RibPolicy toIPNetwork now def = Throw e) ∧
  (∀ (A : Type) (r : result A), throws r = true → ∀ a, r ≠ Ok a).
Proof.
  split; [apply RibPolicyStatement_throws|].
  split; [intros sdef Hw; unfold RibPolicyStatement.RibPolicyStatement; by rewrite Hw|].
  split.
  { intros sdef Hw Hp. unfold RibPolicyStatement.RibPolicyStatement.
    destruct (thrift.set_weight (thrift.action sdef)); [by rewrite Hp|done]. }
  split; [intros now def Hs; unfold RibPolicy.RibPolicy; by rewrite Hs|].
  split; [apply RibPolicy_throws|].
  split; [|by intros A [] ? ?].
  intros now def before sdef after e Hs Hbefore He.
  assert (RibPolicy.construct_statements toIPNetwork (thrift.statements def) [] = Throw e)
    as Hc.
  { apply construct_statements_Throw. exists before, sdef, after.
    split; [done|]. split; [by apply Forall_forall|done]. }
  unfold RibPolicy.RibPolicy. rewrite Hc.
  destruct (thrift.statements def); [by destruct before|done].
Qed.

Lemma isActive_true p now :
  RibPolicy.isActive p now = true ↔
  now + ticks_per_millisecond ≤ RibPolicy.validUntilTs_ p.
Proof.
  unfold RibPolicy.isActive, RibPolicy.getTtlDuration.
  rewrite Z.ltb_lt, milliseconds_pos. lia.
Qed.

Lemma isActive_false p now :
  RibPolicy.isActive p now = false ↔
  RibPolicy.validUntilTs_ p < now + ticks_per_millisecond.
Proof.
  rewrite <- not_true_iff_false, isActive_true. lia.
Qed.

(** C4 (amended). [isActive] returns true exactly when [validUntil] is
    at least one millisecond after the current instant, that is when the
    remaining time truncated to whole milliseconds is positive; an active
    policy has [validUntil] strictly after the current instant, and a
    policy whose [validUntil] is not after the current instant is not
    active. *)
Theorem isActive_iff_a_millisecond_left p now :
  (RibPolicy.isActive p now = true ↔
   now + ticks_per_millisecond ≤ RibPolicy.validUntilTs_ p) ∧
  (RibPolicy.isActive p now = true ↔ 0 < RibPolicy.getTtlDuration p now) ∧
  (RibPolicy.isActive p now = true → now < RibPolicy.validUntilTs_ p) ∧
  (RibPolicy.validUntilTs_ p ≤ now → RibPolicy.isActive p now = false).
Proof.
  split; [apply isActive_true|].
  split; [unfold RibPolicy.isActive; apply Z.ltb_lt|].
  split.
  - intros Ha%isActive_true. unfold ticks_per_millisecond in Ha. lia.
  - intros Hle. apply isActive_false. unfold ticks_per_millisecond. lia.
Qed.

(** C9 (amended). [getTtlDuration] returns [validUntil] minus the current
    instant truncated toward zero to whole milliseconds, without clamping:
    the result is within one millisecond of the exact difference, has its
    sign or is zero, is negative exactly when the policy expired at least
    one millisecond ago, never increases as the clock advances, and is
    strictly smaller at an instant at least two milliseconds later. *)
Theorem getTtlDuration_truncates_to_milliseconds p now :
  RibPolicy.getTtlDuration p now =
    (RibPolicy.validUntilTs_ p - now) ÷ ticks_per_millisecond ∧
  Z.abs (RibPolicy.validUntilTs_ p - now
         - RibPolicy.getTtlDuration p now * ticks_per_millisecond)
    < ticks_per_millisecond ∧
  (RibPolicy.getTtlDuration p now < 0 ↔
   RibPolicy.validUntilTs_ p + ticks_per_millisecond ≤ now) ∧
  (RibPolicy.validUntilTs_ p ≤ now → RibPolicy.getTtlDuration p now ≤ 0) ∧
  (∀ later, now ≤ later →
            RibPolicy.getTtlDuration p later ≤ RibPolicy.getTtlDuration p now) ∧
  (∀ later, now + 2 * ticks_per_millisecond ≤ later →
            RibPolicy.getTtlDuration p later < RibPolicy.getTtlDuration p now).
Proof.
  unfold RibPolicy.getTtlDuration.
  split; [done|]. split; [quot_ticks|].
  split; [rewrite milliseconds_neg; lia|].
  split; [intros ?; quot_ticks|].
  split; intros later Hl.
  - apply milliseconds_mono. lia.
  - apply milliseconds_apart. lia.
Qed.

Lemma toThrift_statements p now :
  thrift.statements (RibPolicy.toThrift toIpPrefix p now) =
  RibPolicyStatement.toThrift toIpPrefix <$> RibPolicy.policyStatements_ p.
Proof. unfold RibPolicy.toThrift. simpl. by rewrite foldl_emplace_back. Qed.

(** C5 (amended). Serializing at instant [now] emits as [ttl_secs] the
    remaining time at [now] truncated toward zero to whole seconds and
    stored in the signed 32-bit field: the emitted value is that count
    whenever it fits the field (and the count wrapped into the field
    otherwise), whatever the configured value was; the statements'
    serialized forms are emitted in their order.  As long as the remaining
    seconds fit the field, the emitted [ttl_secs] never increases with the
    instant of serialization and is strictly smaller at an instant at least
    two seconds later. *)
Theorem toThrift_emits_remaining_ttl p now :
  thrift.ttl_secs (RibPolicy.toThrift toIpPrefix p now) =
    to_int32 ((RibPolicy.validUntilTs_ p - now) ÷ ticks_per_second) ∧
  (in_int32 ((RibPolicy.validUntilTs_ p - now) ÷ ticks_per_second) →
   thrift.ttl_secs (RibPolicy.toThrift toIpPrefix p now) =
     (RibPolicy.validUntilTs_ p - now) ÷ ticks_per_second) ∧
  thrift.statements (RibPolicy.toThrift toIpPrefix p now) =
    RibPolicyStatement.toThrift toIpPrefix <$> RibPolicy.policyStatements_ p ∧
  (∀ i stmt, RibPolicy.policyStatements_ p !! i = Some stmt →
     thrift.statements (RibPolicy.toThrift toIpPrefix p now) !! i =
       Some (RibPolicyStatement.toThrift toIpPrefix stmt)) ∧
  (∀ later, now ≤ later →
     in_int32 ((RibPolicy.validUntilTs_ p - now) ÷ ticks_per_second) →
     in_int32 ((RibPolicy.validUntilTs_ p - later) ÷ ticks_per_second) →
     thrift.ttl_secs (RibPolicy.toThrift toIpPrefix p later) ≤
     thrift.ttl_secs (RibPolicy.toThrift toIpPrefix p now)) ∧
  (∀ later, now + 2 * ticks_per_second ≤ later →
     in_int32 ((RibPolicy.validUntilTs_ p - now) ÷ ticks_per_second) →
     in_int32 ((RibPolicy.validUntilTs_ p - later) ÷ ticks_per_second) →
     thrift.ttl_secs (RibPolicy.toThrift toIpPrefix p later) <
     thrift.ttl_secs (RibPolicy.toThrift toIpPrefix p now)).
Proof.
  split; [done|].
  split; [intros Hfit; simpl; by apply to_int32_in_range|].
  split; [apply toThrift_statements|]. split.
  - intros i stmt Hi. by rewrite toThrift_statements, list_lookup_fmap, Hi.
  - simpl. unfold duration_cast_seconds.
    split; intros later Hl Hnow Hlater; rewrite !to_int32_in_range by done.
    + apply seconds_mono. lia.
    + apply seconds_apart. lia.
Qed.

(** C10. The policy constructor does not look at [ttl_secs]: on a
    definition whose statement list is not empty and whose statements all
    construct, it completes whatever [ttl_secs] is, with [validUntil] the
    construction instant plus [ttl_secs] seconds; when [ttl_secs] is zero or
    negative, [validUntil] is at or before the construction instant and
    [isActive] is false at the construction instant and ever after. *)
Theorem construction_ignores_ttl now def :
  thrift.statements def ≠ [] →
  (∀ sdef, sdef ∈ thrift.statements def →
           throws (RibPolicyStatement.RibPolicyStatement toIPNetwork sdef) = false) →
  ∃ p,
    RibPolicy.RibPolicy toIPNetwork now def = Ok p ∧
    RibPolicy.validUntilTs_ p = now + thrift.ttl_secs def * ticks_per_second ∧
    (thrift.ttl_secs def ≤ 0 →
     RibPolicy.validUntilTs_ p ≤ now ∧
     ∀ later, now ≤ later → RibPolicy.isActive p later = false).
Proof.
  intros Hne Hall.
  destruct (RibPolicy.RibPolicy toIPNetwork now def) as [p|e] eqn:Hp.
  - exists p. split; [done|].
    apply RibPolicy_Ok in Hp as (_ & _ & Hv). split; [done|].
    intros Httl.
    assert (RibPolicy.validUntilTs_ p ≤ now) as Hle.
    { rewrite Hv. unfold seconds, ticks_per_second. lia. }
    split; [done|]. intros later Hl. apply isActive_false.
    unfold ticks_per_millisecond. lia.
  - assert (throws (RibPolicy.RibPolicy toIPNetwork now def) = true) as Ht
      by by rewrite Hp.
    apply RibPolicy_throws in Ht as [?|(sdef & Hin & Hthrow)]; [done|].
    by rewrite (Hall sdef Hin) in Hthrow.
Qed.

(** *** Applying the statements in order *)

Lemma constructed_has_weight sdef stmt :
  constructed toIPNetwork sdef stmt →
  ∃ w, thrift.set_weight (RibPolicyStatement.action_ stmt) = Some w.
Proof.
  intros (w & l & Hw & _ & ->)%RibPolicyStatement_Ok_inv. by exists w.
Qed.

Lemma policy_statements_have_weight now def p stmt :
  RibPolicy.RibPolicy toIPNetwork now def = Ok p →
  stmt ∈ RibPolicy.policyStatements_ p →
  ∃ w, thrift.set_weight (RibPolicyStatement.action_ stmt) = Some w.
Proof.
  intros (_ & Hall & _)%RibPolicy_Ok Hin.
  induction Hall as [|d s' ?? Hc ? IH]; [by apply elem_of_nil in Hin|].
  apply elem_of_cons in Hin as [->|?]; [by eapply constructed_has_weight|by apply IH].
Qed.

Lemma applyAction_loop_skip ss rest route :
  (∀ s, s ∈ ss → prefix route ∉ RibPolicyStatement.prefixSet_ s) →
  RibPolicy.applyAction_loop (ss ++ rest) route = RibPolicy.applyAction_loop rest route.
Proof.
  induction ss as [|s ss IH]; intros Hno; [done|]. simpl.
  rewrite applyAction_no_match by (apply Hno; by left).
  apply IH. intros s' ?. apply Hno. by right.
Qed.

Lemma applyAction_loop_hit stmt rest route w :
  prefix route ∈ RibPolicyStatement.prefixSet_ stmt →
  thrift.set_weight (RibPolicyStatement.action_ stmt) = Some w →
  RibPolicy.applyAction_loop (stmt :: rest) route =
    RibPolicyStatement.applyAction stmt route.
Proof. intros Hin Hw. simpl. by rewrite (applyAction_match _ _ w). Qed.

Lemma first_match ss route :
  (∀ s, s ∈ ss → prefix route ∉ RibPolicyStatement.prefixSet_ s) ∨
  ∃ before s after,
    ss = before ++ s :: after ∧
    (∀ s', s' ∈ before → prefix route ∉ RibPolicyStatement.prefixSet_ s') ∧
    prefix route ∈ RibPolicyStatement.prefixSet_ s.
Proof.
  induction ss as [|s ss IH]; [left; by intros ? ?%elem_of_nil|].
  destruct (decide (prefix route ∈ RibPolicyStatement.prefixSet_ s)) as [Hin|Hnin].
  - right. exists [], s, ss. split; [done|]. split; [by intros ? ?%elem_of_nil|done].
  - destruct IH as [Hno|(before & s' & after & -> & Hbefore & Hs')].
    + left. by intros s' [->|?]%elem_of_cons; [|apply Hno].
    + right. exists (s :: before), s', after. split; [done|]. split; [|done].
      by intros s'' [->|?]%elem_of_cons; [|apply Hbefore].
Qed.

Lemma match_loop_true ss route :
  RibPolicy.match_loop ss route = true ↔
  ∃ s, s ∈ ss ∧ RibPolicyStatement.match_ s route = true.
Proof.
  induction ss as [|s ss IH]; simpl.
  - split; [done|]. by intros (s & ?%elem_of_nil & _).
  - destruct (RibPolicyStatement.match_ s route) eqn:Hs.
    + split; [|done]. intros _. exists s. split; [by left|done].
    + rewrite IH. split.
      * intros (s' & ? & ?). exists s'. split; [by right|done].
      * intros (s' & [->|?]%elem_of_cons & Hs'); [congruence|by exists s'].
Qed.

(** C2. [applyAction] of a constructed policy returns; it returns true
    exactly when some statement matches the route (when [match] of the
    policy is true), and leaves the route as it was when it returns false.  When the statement [s] is the first
    in definition order that matches, the call returns true with the
    route as [s] alone leaves it, and does so whatever statements follow
    [s]: they are not consulted. *)
Theorem applyAction_first_match_wins now def p route :
  RibPolicy.RibPolicy toIPNetwork now def = Ok p →
  ∃ b route',
    RibPolicy.applyAction p route = Some (b, route') ∧
    (b = true ↔
     ∃ s, s ∈ RibPolicy.policyStatements_ p ∧
          RibPolicyStatement.match_ s route = true) ∧
    b = RibPolicy.match_ p route ∧
    (b = false → route' = route) ∧
    (∀ before s after,
       RibPolicy.policyStatements_ p = before ++ s :: after →
       (∀ s', s' ∈ before → RibPolicyStatement.match_ s' route = false) →
       RibPolicyStatement.match_ s route = true →
       b = true ∧
       RibPolicyStatement.applyAction s route = Some (true, route') ∧
       ∀ after' validUntil,
         RibPolicy.applyAction
           {| RibPolicy.policyStatements_ := before ++ s :: after';
              RibPolicy.validUntilTs_ := validUntil |} route = Some (true, route')).
Proof.
  intros Hp. unfold RibPolicy.applyAction.
  assert (∀ before s after,
    RibPolicy.policyStatements_ p = before ++ s :: after →
    (∀ s', s' ∈ before → RibPolicyStatement.match_ s' route = false) →
    RibPolicyStatement.match_ s route = true →
    ∃ r, RibPolicyStatement.applyAction s route = Some (true, r) ∧
         ∀ after', RibPolicy.applyAction_loop (before ++ s :: after') route =
                   Some (true, r)) as Hfirst.
  { intros before s after Hss Hbefore Hs%match_true.
    destruct (policy_statements_have_weight now def p s Hp) as [w Hw].
    { rewrite Hss. apply elem_of_app. right. by left. }
    eexists. split; [by apply (applyAction_match _ _ w)|].
    intros after'. rewrite applyAction_loop_skip
      by (intros s' ?; by apply match_false, Hbefore).
    rewrite (applyAction_loop_hit _ _ _ w) by done.
    by apply applyAction_match. }
  destruct (first_match (RibPolicy.policyStatements_ p) route)
    as [Hno|(before & s & after & Hss & Hbefore & Hs)].
  - exists false, route. split.
    { rewrite <- (app_nil_r (RibPolicy.policyStatements_ p)).
      by rewrite applyAction_loop_skip. }
    assert (¬ ∃ s, s ∈ RibPolicy.policyStatements_ p ∧
                   RibPolicyStatement.match_ s route = true) as Hnone.
    { intros (s & Hin & Hm%match_true). by destruct (Hno s Hin). }
    split; [by split|].
    split; [symmetry; apply not_true_iff_false; unfold RibPolicy.match_;
            by rewrite match_loop_true|].
    split; [done|].
    intros before s after Hss _ Hs. destruct Hnone. exists s. split; [|done].
    rewrite Hss. apply elem_of_app. right. by left.
  - destruct (Hfirst before s after Hss) as (r & Hr & Hloop);
      [intros s' ?; by apply match_false, Hbefore|by apply match_true|].
    exists true, r. split; [rewrite Hss; apply Hloop|].
    assert (∃ s, s ∈ RibPolicy.policyStatements_ p ∧
                 RibPolicyStatement.match_ s route = true) as Hsome.
    { exists s. split; [|by apply match_true].
      rewrite Hss. apply elem_of_app. right. by left. }
    split; [by split|].
    split; [symmetry; unfold RibPolicy.match_; by apply match_loop_true|].
    split; [done|].
    intros before' s' after'' Hss' Hbefore' Hs'.
    destruct (Hfirst before' s' after'' Hss' Hbefore' Hs') as (r' & Hr' & Hloop').
    assert (r' = r) as ->.
    { specialize (Hloop after). specialize (Hloop' after'').
      rewrite <- Hss in Hloop. rewrite <- Hss' in Hloop'. congruence. }
    split; [done|]. split; [done|]. intros after' validUntil. simpl. apply Hloop'.
Qed.

End policy.

(** ** Serializing and constructing again *)

Section roundtrip.
Context {CIDRNetwork IpPrefix : Type}.
Context `{Countable CIDRNetwork}.
Context (toIPNetwork : IpPrefix → CIDRNetwork) (toIpPrefix : CIDRNetwork → IpPrefix).

(** A network produced by [toIPNetwork] survives the way to its wire form
    and back. *)
Hypothesis toIPNetwork_toIpPrefix :
  ∀ tPrefix, toIPNetwork (toIpPrefix (toIPNetwork tPrefix)) = toIPNetwork tPrefix.

Implicit Types (stmt : RibPolicyStatement.t CIDRNetwork).
Implicit Types (p : RibPolicy.t CIDRNetwork).

Lemma prefixSet_roundtrip (tPrefixes : list IpPrefix) :
  let X : gset CIDRNetwork := list_to_set (toIPNetwork <$> tPrefixes) in
  list_to_set (toIPNetwork <$> (toIpPrefix <$> elements X)) = X.
Proof.
  intros X. apply set_eq. intros x.
  rewrite elem_of_list_to_set, <- list_fmap_compose, list_elem_of_fmap. split.
  - intros (y & -> & Hy%elem_of_elements). simpl.
    pose proof Hy as Hy'. unfold X in Hy'.
    apply elem_of_list_to_set, list_elem_of_fmap in Hy' as (z & -> & _).
    by rewrite toIPNetwork_toIpPrefix.
  - intros Hx. exists x. split; [|by apply elem_of_elements].
    unfold X in Hx.
    apply elem_of_list_to_set, list_elem_of_fmap in Hx as (z & -> & _).
    simpl. by rewrite toIPNetwork_toIpPrefix.
Qed.

Lemma statement_roundtrip sdef stmt :
  constructed toIPNetwork sdef stmt →
  constructed toIPNetwork (RibPolicyStatement.toThrift toIpPrefix stmt) stmt.
Proof.
  intros (w & l & Hw & _ & ->)%RibPolicyStatement_Ok_inv.
  unfold constructed, RibPolicyStatement.RibPolicyStatement, RibPolicyStatement.toThrift.
  simpl. rewrite Hw. do 2 f_equal.
  rewrite foldl_insert_set, foldl_emplace_back, (left_id_L ∅ (∪)). simpl.
  apply prefixSet_roundtrip.
Qed.

Lemma statements_roundtrip (sdefs : list (thrift.RibPolicyStatement IpPrefix))
    (ss : list (RibPolicyStatement.t CIDRNetwork)) :
  Forall2 (constructed toIPNetwork) sdefs ss →
  Forall2 (constructed toIPNetwork) (RibPolicyStatement.toThrift toIpPrefix <$> ss) ss.
Proof.
  induction 1 as [|d s ?? Hc ? IH]; [constructor|].
  rewrite fmap_cons. constructor; [by eapply statement_roundtrip|done].
Qed.

Lemma constructed_stores sdef stmt :
  constructed toIPNetwork sdef stmt →
  RibPolicyStatement.action_ stmt = thrift.action sdef ∧
  ∃ tPrefixes,
    thrift.prefixes (thrift.matcher sdef) = Some tPrefixes ∧
    ∀ x, x ∈ RibPolicyStatement.prefixSet_ stmt ↔ x ∈ toIPNetwork <$> tPrefixes.
Proof.
  intros (w & l & _ & Hl & ->)%RibPolicyStatement_Ok_inv. split; [done|].
  exists l. split; [done|]. intros x. simpl. by rewrite elem_of_list_to_set.
Qed.

(** C6. From a definition on which the policy constructor completes,
    serializing the policy (at any instant) and constructing from the
    output (at any instant) completes with the same statements in the
    same order: statement for statement the prefix sets are equal as
    sets and the actions are equal, and both are those of the original
    definition, whose prefixes are the members of the set whatever their
    order in the list; the new [validUntil] counts from the second
    construction with the serialized [ttl_secs], which is the remaining
    whole seconds when they fit the 32-bit field. *)
Theorem construct_serialize_construct t0 t1 t2 (def : thrift.RibPolicy IpPrefix) p :
  RibPolicy.RibPolicy toIPNetwork t0 def = Ok p →
  ∃ p',
    RibPolicy.RibPolicy toIPNetwork t2 (RibPolicy.toThrift toIpPrefix p t1) = Ok p' ∧
    RibPolicy.policyStatements_ p' = RibPolicy.policyStatements_ p ∧
    Forall2 (λ s s',
               RibPolicyStatement.prefixSet_ s' = RibPolicyStatement.prefixSet_ s ∧
               RibPolicyStatement.action_ s' = RibPolicyStatement.action_ s)
            (RibPolicy.policyStatements_ p) (RibPolicy.policyStatements_ p') ∧
    Forall2 (λ sdef s',
               RibPolicyStatement.action_ s' = thrift.action sdef ∧
               ∃ tPrefixes,
                 thrift.prefixes (thrift.matcher sdef) = Some tPrefixes ∧
                 ∀ x, x ∈ RibPolicyStatement.prefixSet_ s' ↔
                      x ∈ toIPNetwork <$> tPrefixes)
            (thrift.statements def) (RibPolicy.policyStatements_ p') ∧
    RibPolicy.validUntilTs_ p' =
      t2 + thrift.ttl_secs (RibPolicy.toThrift toIpPrefix p t1) * ticks_per_second ∧
    (in_int32 ((RibPolicy.validUntilTs_ p - t1) ÷ ticks_per_second) →
     RibPolicy.validUntilTs_ p' =
       t2 + ((RibPolicy.validUntilTs_ p - t1) ÷ ticks_per_second) * ticks_per_second).
Proof.
  intros (Hne & Hall & Hv)%RibPolicy_Ok.
  exists {| RibPolicy.policyStatements_ := RibPolicy.policyStatements_ p;
            RibPolicy.validUntilTs_ :=
              t2 + seconds (thrift.ttl_secs (RibPolicy.toThrift toIpPrefix p t1)) |}.
  split.
  { apply RibPolicy_Ok. rewrite toThrift_statements. simpl.
    split; [|split; [by eapply statements_roundtrip|done]].
    destruct Hall; [done|by rewrite fmap_cons]. }
  simpl. split; [done|]. split; [|split; [|split; [done|]]].
  - clear. induction (RibPolicy.policyStatements_ p); by constructor.
  - eapply Forall2_impl; [exact Hall|]. apply constructed_stores.
  - intros Hfit. unfold duration_cast_seconds. by rewrite to_int32_in_range.
Qed.

End roundtrip.

(** ** Further properties of the statement *)

Section statement_more.
Context {CIDRNetwork Addr IpPrefix : Type}.
Context `{Countable CIDRNetwork, Countable Addr}.
Context (toIPNetwork : IpPrefix → CIDRNetwork) (toIpPrefix : CIDRNetwork → IpPrefix).

Implicit Types (sdef : thrift.RibPolicyStatement IpPrefix).
Implicit Types (stmt : RibPolicyStatement.t CIDRNetwork).
Implicit Types (route : RibUnicastEntry CIDRNetwork Addr).
Implicit Types (w : thrift.RibRouteActionWeight).
Implicit Types (nh : thrift.NextHopThrift Addr).

(** X1. A constructed statement matches a route exactly when the route's
    prefix is the conversion of one of the prefixes listed in the
    definition: matching is equality with a listed network. *)
Theorem match_iff_listed_prefix sdef stmt route :
  constructed toIPNetwork sdef stmt →
  ∃ tPrefixes,
    thrift.prefixes (thrift.matcher sdef) = Some tPrefixes ∧
    (RibPolicyStatement.match_ stmt route = true ↔
     ∃ tPrefix, tPrefix ∈ tPrefixes ∧ prefix route = toIPNetwork tPrefix).
Proof.
  intros (w & l & _ & Hl & ->)%RibPolicyStatement_Ok_inv.
  exists l. split; [done|].
  rewrite match_true. simpl. rewrite elem_of_list_to_set, list_elem_of_fmap.
  split; intros (t & ? & ?); by exists t.
Qed.

(** X3. The constructor sees the listed prefixes as a set of networks: two
    definitions with the same name and action whose prefix lists convert
    to the same networks, in any order and with any repetition, construct
    the same statement. *)
Theorem statement_ignores_prefix_order sdef1 sdef2 tPrefixes1 tPrefixes2 :
  thrift.name sdef1 = thrift.name sdef2 →
  thrift.action sdef1 = thrift.action sdef2 →
  thrift.prefixes (thrift.matcher sdef1) = Some tPrefixes1 →
  thrift.prefixes (thrift.matcher sdef2) = Some tPrefixes2 →
  (∀ n, n ∈ toIPNetwork <$> tPrefixes1 ↔ n ∈ toIPNetwork <$> tPrefixes2) →
  RibPolicyStatement.RibPolicyStatement toIPNetwork sdef1 =
  RibPolicyStatement.RibPolicyStatement toIPNetwork sdef2.
Proof.
  intros Hname Haction Hl1 Hl2 Hsame.
  unfold RibPolicyStatement.RibPolicyStatement.
  rewrite Hname, Haction, Hl1, Hl2.
  destruct (thrift.set_weight (thrift.action sdef2)); [|done].
  do 2 f_equal. rewrite !foldl_insert_set, !(left_id_L ∅ (∪)).
  apply set_eq. intros n. by rewrite !elem_of_list_to_set.
Qed.

(** X4. The serialized form of a constructed statement always carries the
    prefixes field; it lists one prefix per member of the prefix set, so
    never more than the definition listed, and each of them is the wire
    form of the network of a listed prefix. *)
Theorem toThrift_lists_the_prefix_set sdef stmt :
  constructed toIPNetwork sdef stmt →
  ∃ tPrefixes out,
    thrift.prefixes (thrift.matcher sdef) = Some tPrefixes ∧
    thrift.prefixes (thrift.matcher (RibPolicyStatement.toThrift toIpPrefix stmt)) =
      Some out ∧
    length out = size (RibPolicyStatement.prefixSet_ stmt) ∧
    (length out ≤ length tPrefixes)%nat ∧
    (∀ x, x ∈ out ↔
          ∃ tPrefix, tPrefix ∈ tPrefixes ∧ x = toIpPrefix (toIPNetwork tPrefix)).
Proof.
  intros (w & l & _ & Hl & ->)%RibPolicyStatement_Ok_inv.
  exists l. eexists. split; [done|]. split; [done|]. simpl.
  rewrite foldl_emplace_back, app_nil_l, length_fmap.
  split; [done|]. split.
  - change (length (elements ?X)) with (size X).
    etrans; [apply size_list_to_set_le|]. by rewrite length_fmap.
  - intros x. rewrite list_elem_of_fmap. split.
    + intros (n & -> & Hn%elem_of_elements).
      apply elem_of_list_to_set, list_elem_of_fmap in Hn as (t & -> & ?).
      by exists t.
    + intros (t & Ht & ->). exists (toIPNetwork t). split; [done|].
      apply elem_of_elements, elem_of_list_to_set, list_elem_of_fmap. by exists t.
Qed.

Lemma reweigh_reweigh w nh : reweigh w (reweigh w nh) = reweigh w nh.
Proof. done. Qed.

Lemma reweighted_idem w (nhs : gset (thrift.NextHopThrift Addr)) :
  reweighted w (reweighted w nhs) = reweighted w nhs.
Proof.
  apply set_eq. intros x. rewrite !elem_of_reweighted. split.
  - intros (nh' & (nh & Hin & Hpos & ->)%elem_of_reweighted & _ & ->).
    exists nh. by rewrite reweigh_reweigh.
  - intros (nh & Hin & Hpos & ->). exists (reweigh w nh).
    split; [apply elem_of_reweighted; by exists nh|].
    by rewrite candidateWeight_reweigh, reweigh_reweigh.
Qed.

(** X6. Applying a constructed statement a second time changes nothing:
    on the route the first call left, the call returns the same boolean
    and the same route. *)
Theorem statement_applyAction_idempotent sdef stmt route b route' :
  constructed toIPNetwork sdef stmt →
  RibPolicyStatement.applyAction stmt route = Some (b, route') →
  RibPolicyStatement.applyAction stmt route' = Some (b, route').
Proof.
  intros (w & l & Hw & _ & Hstmt)%RibPolicyStatement_Ok_inv.
  assert (thrift.set_weight (RibPolicyStatement.action_ stmt) = Some w) as Hw'
    by by subst.
  clear Hstmt.
  destruct (decide (prefix route ∈ RibPolicyStatement.prefixSet_ stmt)) as [Hin|Hnin].
  - rewrite (applyAction_match _ _ w) by done. intros [= <- <-].
    rewrite (applyAction_match _ _ w) by done. simpl.
    by rewrite reweighted_idem.
  - rewrite applyAction_no_match by done. intros [= <- <-].
    by apply applyAction_no_match.
Qed.

Lemma reweighted_forget_weight w (nhs1 nhs2 : gset (thrift.NextHopThrift Addr)) :
  (∀ nh, nh ∈ nhs1 → ∃ nh', nh' ∈ nhs2 ∧
         thrift.address nh' = thrift.address nh ∧ thrift.area nh' = thrift.area nh) →
  reweighted w nhs1 ⊆ reweighted w nhs2.
Proof.
  intros Hsame x (nh & Hin & Hpos & ->)%elem_of_reweighted.
  destruct (Hsame nh Hin) as (nh' & Hin' & Haddr & Harea).
  assert (candidateWeight w nh' = candidateWeight w nh) as Hcw
    by (unfold candidateWeight; by rewrite Harea).
  apply elem_of_reweighted. exists nh'. split; [done|]. split; [by rewrite Hcw|].
  unfold reweigh, thrift.with_weight. by rewrite Haddr, Harea, Hcw.
Qed.

(** X9. The action overwrites weights without reading them: on two routes
    with the same matching prefix whose next-hops are the same once their
    weights are set aside, a constructed statement gives the same result. *)
Theorem applyAction_ignores_incoming_weights sdef stmt route1 route2 :
  constructed toIPNetwork sdef stmt →
  prefix route1 ∈ RibPolicyStatement.prefixSet_ stmt →
  prefix route2 = prefix route1 →
  set_map (C := gset (thrift.NextHopThrift Addr)) (D := gset (thrift.NextHopThrift Addr))
          (λ nh, thrift.with_weight nh 0) (nexthops route1) =
  set_map (C := gset (thrift.NextHopThrift Addr)) (D := gset (thrift.NextHopThrift Addr))
          (λ nh, thrift.with_weight nh 0) (nexthops route2) →
  RibPolicyStatement.applyAction stmt route1 =
  RibPolicyStatement.applyAction stmt route2.
Proof.
  intros (w & l & Hw & _ & Hstmt)%RibPolicyStatement_Ok_inv Hin Hprefix Hsame.
  assert (thrift.set_weight (RibPolicyStatement.action_ stmt) = Some w) as Hw'
    by by subst.
  rewrite !(applyAction_match _ _ w) by (done || by rewrite Hprefix).
  rewrite Hprefix. do 3 f_equal.
  assert (∀ X Y : gset (thrift.NextHopThrift Addr),
    set_map (D := gset (thrift.NextHopThrift Addr))
            (λ nh, thrift.with_weight nh 0) X =
    set_map (D := gset (thrift.NextHopThrift Addr))
            (λ nh, thrift.with_weight nh 0) Y →
    ∀ nh, nh ∈ X → ∃ nh', nh' ∈ Y ∧
      thrift.address nh' = thrift.address nh ∧ thrift.area nh' = thrift.area nh) as Hforget.
  { intros X Y HXY nh Hnh.
    assert (thrift.with_weight nh 0 ∈
            set_map (D := gset (thrift.NextHopThrift Addr))
                    (λ nh, thrift.with_weight nh 0) X) as Hmem
      by (apply elem_of_map; by exists nh).
    rewrite HXY in Hmem. apply elem_of_map in Hmem as (nh' & Heq & Hnh').
    exists nh'. split; [done|]. by injection Heq as -> ->. }
  apply set_eq. intros x. split; apply reweighted_forget_weight; by apply Hforget.
Qed.

(** X10. A matched route is left without next-hops exactly when no
    next-hop has a positive candidate weight (none at all, or a default of
    zero or less with no positive mapped weight for their areas); the call
    still returns true. *)
Theorem applyAction_withdraws_all_iff sdef stmt route w :
  constructed toIPNetwork sdef stmt →
  thrift.set_weight (thrift.action sdef) = Some w →
  prefix route ∈ RibPolicyStatement.prefixSet_ stmt →
  ∃ route',
    RibPolicyStatement.applyAction stmt route = Some (true, route') ∧
    (nexthops route' = ∅ ↔
     ∀ nh, nh ∈ nexthops route → candidateWeight w nh ≤ 0).
Proof.
  intros (w' & l & Hw' & _ & ->)%RibPolicyStatement_Ok_inv Hw Hin.
  assert (w' = w) as -> by congruence.
  eexists. split; [by apply applyAction_match|]. simpl. split.
  - intros Hempty nh Hnh. destruct (decide (0 < candidateWeight w nh)) as [Hpos|]; [|lia].
    assert (reweigh w nh ∈ reweighted w (nexthops route)) as Hmem
      by (apply elem_of_reweighted; by exists nh).
    rewrite Hempty in Hmem. by apply not_elem_of_empty in Hmem.
  - intros Hall. apply set_eq. intros x. split; [|by intros ?%not_elem_of_empty].
    intros (nh & Hnh & Hpos & _)%elem_of_reweighted. specialize (Hall nh Hnh). lia.
Qed.

End statement_more.

(** ** Further properties of the policy *)

Section policy_more.
Context {CIDRNetwork Addr IpPrefix : Type}.
Context `{Countable CIDRNetwork, Countable Addr}.
Context (toIPNetwork : IpPrefix → CIDRNetwork) (toIpPrefix : CIDRNetwork → IpPrefix).

Implicit Types (sdef : thrift.RibPolicyStatement IpPrefix).
Implicit Types (def : thrift.RibPolicy IpPrefix).
Implicit Types (stmt : RibPolicyStatement.t CIDRNetwork).
Implicit Types (ss : list (RibPolicyStatement.t CIDRNetwork)).
Implicit Types (p : RibPolicy.t CIDRNetwork).
Implicit Types (route : RibUnicastEntry CIDRNetwork Addr).

Lemma Forall2_constructed_elem_of_r (sdefs : list (thrift.RibPolicyStatement IpPrefix))
    ss stmt :
  Forall2 (constructed toIPNetwork) sdefs ss → stmt ∈ ss →
  ∃ sdef, sdef ∈ sdefs ∧ constructed toIPNetwork sdef stmt.
Proof.
  induction 1 as [|d s ?? Hc ? IH]; [by intros ?%elem_of_nil|].
  intros [->|Hin]%elem_of_cons.
  - exists d. split; [by left|done].
  - destruct (IH Hin) as (d' & ? & ?). exists d'. split; [by right|done].
Qed.

Lemma Forall2_constructed_elem_of_l (sdefs : list (thrift.RibPolicyStatement IpPrefix))
    ss sdef :
  Forall2 (constructed toIPNetwork) sdefs ss → sdef ∈ sdefs →
  ∃ stmt, stmt ∈ ss ∧ constructed toIPNetwork sdef stmt.
Proof.
  induction 1 as [|d s ?? Hc ? IH]; [by intros ?%elem_of_nil|].
  intros [->|Hin]%elem_of_cons.
  - exists s. split; [by left|done].
  - destruct (IH Hin) as (s' & ? & ?). exists s'. split; [by right|done].
Qed.

(** X2. [match] of a constructed policy is true exactly when the route's
    prefix is the conversion of a prefix listed by one of the statement
    definitions. *)
Theorem policy_match_iff_listed_prefix now def p route :
  RibPolicy.RibPolicy toIPNetwork now def = Ok p →
  (RibPolicy.match_ p route = true ↔
   ∃ sdef tPrefixes tPrefix,
     sdef ∈ thrift.statements def ∧
     thrift.prefixes (thrift.matcher sdef) = Some tPrefixes ∧
     tPrefix ∈ tPrefixes ∧ prefix route = toIPNetwork tPrefix).
Proof.
  intros (_ & Hall & _)%RibPolicy_Ok. unfold RibPolicy.match_.
  rewrite match_loop_true. split.
  - intros (s & Hs & Hm%match_true).
    destruct (Forall2_constructed_elem_of_r _ _ _ Hall Hs) as (d & Hd & Hc).
    apply RibPolicyStatement_Ok_inv in Hc as (w & l & _ & Hl & ->). simpl in Hm.
    apply elem_of_list_to_set, list_elem_of_fmap in Hm as (t & Ht & ?).
    by exists d, l, t.
  - intros (d & l & t & Hd & Hl & Ht & Hp).
    destruct (Forall2_constructed_elem_of_l _ _ _ Hall Hd) as (s & Hs & Hc).
    exists s. split; [done|]. apply match_true.
    apply RibPolicyStatement_Ok_inv in Hc as (w & l' & _ & Hl' & ->). simpl.
    assert (l' = l) as -> by congruence.
    apply elem_of_list_to_set, list_elem_of_fmap. by exists t.
Qed.

(** The loop of [applyAction] depends on the route's prefix only for the
    choice of the statement. *)
Lemma applyAction_loop_cases ss route :
  (∀ s, s ∈ ss → ∃ w, thrift.set_weight (RibPolicyStatement.action_ s) = Some w) →
  (∀ route2, prefix route2 = prefix route →
     RibPolicy.applyAction_loop ss route2 = Some (false, route2)) ∨
  (∃ w, ∀ route2, prefix route2 = prefix route →
     RibPolicy.applyAction_loop ss route2 =
       Some (true, {| prefix := prefix route2;
                      nexthops := reweighted w (nexthops route2) |})).
Proof.
  intros Hw.
  destruct (first_match ss route) as [Hno|(before & s & after & -> & Hbefore & Hs)].
  - left. intros route2 Hp. rewrite <- (app_nil_r ss).
    rewrite applyAction_loop_skip; [done|]. intros s ?. rewrite Hp. by apply Hno.
  - right. destruct (Hw s) as [w Hws]; [apply elem_of_app; right; by left|].
    exists w. intros route2 Hp.
    rewrite applyAction_loop_skip by (intros s' ?; rewrite Hp; by apply Hbefore).
    rewrite (applyAction_loop_hit _ _ _ w) by (done || by rewrite Hp).
    apply applyAction_match; [by rewrite Hp|done].
Qed.

(** X7. Applying a constructed policy a second time changes nothing: on
    the route the first call left, the call returns the same boolean and
    the same route. *)
Theorem policy_applyAction_idempotent now def p route b route' :
  RibPolicy.RibPolicy toIPNetwork now def = Ok p →
  RibPolicy.applyAction p route = Some (b, route') →
  RibPolicy.applyAction p route' = Some (b, route').
Proof.
  intros Hp. unfold RibPolicy.applyAction.
  destruct (applyAction_loop_cases (RibPolicy.policyStatements_ p) route)
    as [Hno|(w & Hyes)].
  { intros s Hs. by eapply policy_statements_have_weight. }
  - rewrite (Hno route) by done. intros [= <- <-]. by apply Hno.
  - rewrite (Hyes route) by done. intros [= <- <-].
    rewrite Hyes by done. simpl. by rewrite reweighted_idem.
Qed.

(** X8. Whatever a constructed policy does to a route, the prefix is the
    same afterwards, there are not more next-hops than before, every
    next-hop left has the address and area of one that was there, and when
    the call returns true every weight left is positive. *)
Theorem policy_applyAction_result now def p route b route' :
  RibPolicy.RibPolicy toIPNetwork now def = Ok p →
  RibPolicy.applyAction p route = Some (b, route') →
  prefix route' = prefix route ∧
  (size (nexthops route') ≤ size (nexthops route))%nat ∧
  (∀ x, x ∈ nexthops route' →
        ∃ nh, nh ∈ nexthops route ∧
              thrift.address x = thrift.address nh ∧ thrift.area x = thrift.area nh) ∧
  (b = true → ∀ x, x ∈ nexthops route' → 0 < thrift.weight x).
Proof.
  intros Hp. unfold RibPolicy.applyAction.
  destruct (applyAction_loop_cases (RibPolicy.policyStatements_ p) route)
    as [Hno|(w & Hyes)].
  { intros s Hs. by eapply policy_statements_have_weight. }
  - rewrite (Hno route) by done. intros [= <- <-].
    split; [done|]. split; [done|]. split; [|done].
    intros x Hx. by exists x.
  - rewrite (Hyes route) by done. intros [= <- <-]. simpl.
    split; [done|]. split; [apply reweighted_size|]. split.
    + intros x (nh & Hnh & _ & ->)%elem_of_reweighted. by exists nh.
    + intros _ x Hx. by apply reweighted_positive in Hx as [? _].
Qed.

Lemma statement_reconstructs sdef stmt :
  constructed toIPNetwork sdef stmt →
  ∃ stmt',
    constructed toIPNetwork (RibPolicyStatement.toThrift toIpPrefix stmt) stmt' ∧
    RibPolicyStatement.name_ stmt' = RibPolicyStatement.name_ stmt ∧
    RibPolicyStatement.action_ stmt' = RibPolicyStatement.action_ stmt ∧
    ∀ x, x ∈ RibPolicyStatement.prefixSet_ stmt' ↔
         ∃ n, n ∈ RibPolicyStatement.prefixSet_ stmt ∧ x = toIPNetwork (toIpPrefix n).
Proof.
  intros (w & l & Hw & _ & ->)%RibPolicyStatement_Ok_inv.
  unfold constructed, RibPolicyStatement.RibPolicyStatement, RibPolicyStatement.toThrift.
  simpl. rewrite Hw. eexists. split; [done|]. simpl. split; [done|]. split; [done|].
  intros x. rewrite foldl_insert_set, foldl_emplace_back, (left_id_L ∅ (∪)), app_nil_l.
  rewrite elem_of_list_to_set, <- list_fmap_compose, list_elem_of_fmap.
  split; intros (n & ? & ?); exists n; by rewrite ?elem_of_elements in *.
Qed.

(** X5. The serialized form of a constructed policy always constructs
    again, whatever the two conversions are: the new policy has, statement
    for statement in the same order, the same name and action, and as
    prefix set the networks of the serialized prefixes. *)
Theorem serialized_policy_constructs t0 t1 t2 def p :
  RibPolicy.RibPolicy toIPNetwork t0 def = Ok p →
  ∃ p',
    RibPolicy.RibPolicy toIPNetwork t2 (RibPolicy.toThrift toIpPrefix p t1) = Ok p' ∧
    Forall2 (λ s s',
               RibPolicyStatement.name_ s' = RibPolicyStatement.name_ s ∧
               RibPolicyStatement.action_ s' = RibPolicyStatement.action_ s ∧
               ∀ x, x ∈ RibPolicyStatement.prefixSet_ s' ↔
                    ∃ n, n ∈ RibPolicyStatement.prefixSet_ s ∧
                         x = toIPNetwork (toIpPrefix n))
            (RibPolicy.policyStatements_ p) (RibPolicy.policyStatements_ p').
Proof.
  intros (Hne & Hall & _)%RibPolicy_Ok.
  assert (∃ ss',
    Forall2 (constructed toIPNetwork)
      (RibPolicyStatement.toThrift toIpPrefix <$> RibPolicy.policyStatements_ p) ss' ∧
    Forall2 (λ s s',
               RibPolicyStatement.name_ s' = RibPolicyStatement.name_ s ∧
               RibPolicyStatement.action_ s' = RibPolicyStatement.action_ s ∧
               ∀ x, x ∈ RibPolicyStatement.prefixSet_ s' ↔
                    ∃ n, n ∈ RibPolicyStatement.prefixSet_ s ∧
                         x = toIPNetwork (toIpPrefix n))
            (RibPolicy.policyStatements_ p) ss') as (ss' & Hss' & Hrel).
  { clear Hne. induction Hall as [|d s ?? Hc ? IH].
    - exists []. split; constructor.
    - destruct IH as (ss' & ? & ?).
      destruct (statement_reconstructs d s Hc) as (s' & ? & ?).
      exists (s' :: ss'). rewrite fmap_cons. split; by constructor. }
  exists {| RibPolicy.policyStatements_ := ss';
            RibPolicy.validUntilTs_ :=
              t2 + seconds (thrift.ttl_secs (RibPolicy.toThrift toIpPrefix p t1)) |}.
  split; [|done]. apply RibPolicy_Ok. rewrite toThrift_statements. simpl.
  split; [|done]. destruct Hall; [done|by rewrite fmap_cons].
Qed.

(** X15. Constructing and serializing keeps the statements' names and
    actions, in the order of the definition. *)
Theorem construct_serialize_keeps_names_and_actions t0 t1 def p :
  RibPolicy.RibPolicy toIPNetwork t0 def = Ok p →
  Forall2 (λ sdef out,
             thrift.name out = thrift.name sdef ∧
             thrift.action out = thrift.action sdef ∧
             thrift.prefixes (thrift.matcher out) ≠ None)
          (thrift.statements def)
          (thrift.statements (RibPolicy.toThrift toIpPrefix p t1)).
Proof.
  intros (_ & Hall & _)%RibPolicy_Ok. rewrite toThrift_statements.
  apply Forall2_fmap_r. eapply Forall2_impl; [exact Hall|].
  intros d s (w & l & _ & _ & ->)%RibPolicyStatement_Ok_inv. by simpl.
Qed.

End policy_more.

(** ** Further properties of the time to live *)

Section ttl_more.
Context {CIDRNetwork IpPrefix : Type}.
Context `{Countable CIDRNetwork}.
Context (toIPNetwork : IpPrefix → CIDRNetwork) (toIpPrefix : CIDRNetwork → IpPrefix).

Implicit Types (def : thrift.RibPolicy IpPrefix).
Implicit Types (p : RibPolicy.t CIDRNetwork).

(** X11. A policy constructed at [t0] is active exactly up to one
    millisecond before [t0] plus [ttl_secs] seconds: with a [ttl_secs] of
    at least one it is active at the construction instant, and once it is
    not active it is not active at any later instant. *)
Theorem constructed_policy_active_window t0 def p :
  RibPolicy.RibPolicy toIPNetwork t0 def = Ok p →
  (∀ t, RibPolicy.isActive p t = true ↔
        t + ticks_per_millisecond ≤ t0 + thrift.ttl_secs def * ticks_per_second) ∧
  (1 ≤ thrift.ttl_secs def → RibPolicy.isActive p t0 = true) ∧
  (∀ t later, t ≤ later →
     RibPolicy.isActive p t = false → RibPolicy.isActive p later = false).
Proof.
  intros (_ & _ & Hv)%RibPolicy_Ok. unfold seconds in Hv. split; [|split].
  - intros t. by rewrite isActive_true, Hv.
  - intros Httl. apply isActive_true. rewrite Hv.
    unfold ticks_per_millisecond, ticks_per_second. lia.
  - intros t later Hle. rewrite !isActive_false. lia.
Qed.

(** X12. At its construction instant a policy reports the configured time
    to live exactly: [getTtlDuration] is [ttl_secs] thousand milliseconds
    and, for a [ttl_secs] of the 32-bit field, the serialized [ttl_secs] is
    the configured one; serialized at a later instant, not more than 2^31
    seconds after [validUntil], [ttl_secs] is never more than the
    configured one. *)
Theorem ttl_at_construction_instant t0 def p :
  RibPolicy.RibPolicy toIPNetwork t0 def = Ok p →
  RibPolicy.getTtlDuration p t0 = thrift.ttl_secs def * 1000 ∧
  (in_int32 (thrift.ttl_secs def) →
   thrift.ttl_secs (RibPolicy.toThrift toIpPrefix p t0) = thrift.ttl_secs def ∧
   ∀ t, t0 ≤ t →
        t ≤ RibPolicy.validUntilTs_ p + 2147483648 * ticks_per_second →
        thrift.ttl_secs (RibPolicy.toThrift toIpPrefix p t) ≤ thrift.ttl_secs def).
Proof.
  intros (_ & _ & Hv)%RibPolicy_Ok.
  unfold RibPolicy.getTtlDuration, RibPolicy.toThrift. simpl. rewrite Hv.
  split; [quot_ticks|]. intros Hfit. split.
  - rewrite to_int32_in_range by quot_ticks. quot_ticks.
  - intros t Ht Hnear. rewrite to_int32_in_range by quot_ticks. quot_ticks.
Qed.


(** X14. The serialized [ttl_secs] and [isActive] read the same clock
    difference: when the remaining seconds fit the 32-bit field, a
    serialized [ttl_secs] of at least one means the policy is active, a
    policy that is not active serializes a [ttl_secs] of zero or less, and
    an active policy serializes a [ttl_secs] that is not negative. *)
Theorem serialized_ttl_and_isActive p t :
  in_int32 ((RibPolicy.validUntilTs_ p - t) ÷ ticks_per_second) →
  (1 ≤ thrift.ttl_secs (RibPolicy.toThrift toIpPrefix p t) →
   RibPolicy.isActive p t = true) ∧
  (RibPolicy.isActive p t = false →
   thrift.ttl_secs (RibPolicy.toThrift toIpPrefix p t) ≤ 0) ∧
  (RibPolicy.isActive p t = true →
   0 ≤ thrift.ttl_secs (RibPolicy.toThrift toIpPrefix p t)).
Proof.
  intros Hfit. rewrite isActive_true, isActive_false. simpl.
  unfold duration_cast_seconds. rewrite to_int32_in_range by done.
  split; [|split]; intros ?; quot_ticks.
Qed.

End ttl_more.

(** ** The IPv4 instance: examples *)

Section ipv4_examples.
Import ipv4.

Lemma ipv4_toIPNetwork_toIpPrefix (tPrefix : IpPrefix) :
  toIPNetwork (toIpPrefix (toIPNetwork tPrefix)) = toIPNetwork tPrefix.
Proof.
  unfold toIPNetwork, toIpPrefix. simpl. f_equal.
  by rewrite <- N.land_assoc, N.land_diag.
Qed.

Example construct_east :
  RibPolicyStatement.RibPolicyStatement toIPNetwork stmt_east = Ok east.
Proof. vm_compute. reflexivity. Qed.

Example construct_matches_nothing :
  RibPolicyStatement.RibPolicyStatement toIPNetwork stmt_no_prefix = Ok matches_nothing.
Proof. vm_compute. reflexivity. Qed.

Example construct_installed_30s :
  RibPolicy.RibPolicy toIPNetwork 0 policy_30s = Ok installed_30s.
Proof. vm_compute. reflexivity. Qed.

Example construct_installed_expired :
  RibPolicy.RibPolicy toIPNetwork 0 policy_expired = Ok installed_expired.
Proof. vm_compute. reflexivity. Qed.

(** The west next-hop has no mapped area and the default weight is 0: it
    is withdrawn; the east one gets weight 10. *)
Example applyAction_east :
  RibPolicyStatement.applyAction east route_192_168 =
    Some (true, {| prefix := prefix route_192_168;
                   nexthops := {[ thrift.with_weight nh_east 10 ]} |}).
Proof. vm_compute. reflexivity. Qed.

(** Matching is by equality with a member of the set: 192.168.1.0/24 is
    inside 192.168.0.0/16 and does not match it. *)
Example applyAction_east_subnet :
  RibPolicyStatement.applyAction east route_192_168_1 = Some (false, route_192_168_1).
Proof. vm_compute. reflexivity. Qed.

(** Two next-hops that differ in their weight only are one element after
    reweighting. *)
Example reweighted_collapses :
  size ({[ nh_east; thrift.with_weight nh_east 2 ]} : gset (thrift.NextHopThrift string)) = 2%nat ∧
  reweighted east_only {[ nh_east; thrift.with_weight nh_east 2 ]} =
    {[ thrift.with_weight nh_east 10 ]}.
Proof. split; vm_compute; reflexivity. Qed.

(** A prefix listed twice is serialized once. *)
Example toThrift_drops_duplicates :
  ∃ stmt,
    RibPolicyStatement.RibPolicyStatement toIPNetwork
      {| thrift.name := "twice";
         thrift.matcher := {| thrift.prefixes := Some [net_10; net_10] |};
         thrift.action := {| thrift.set_weight := Some flat_one |} |} = Ok stmt ∧
    thrift.prefixes (thrift.matcher (RibPolicyStatement.toThrift toIpPrefix stmt)) =
      Some [net_10].
Proof. eexists. split; [reflexivity|]. vm_compute. reflexivity. Qed.

End ipv4_examples.

(** ** The IPv4 instance: the theorems at work *)

Section ipv4_instances.
Import ipv4.

(** The statement [east] on the route to 192.168.0.0/16: the east
    next-hop comes out with weight 10, the west one is withdrawn. *)
Lemma applyAction_reweighs_matching_route_at_east :
  RibPolicyStatement.RibPolicyStatement toIPNetwork stmt_east = Ok east ∧
  prefix route_192_168 ∈ RibPolicyStatement.prefixSet_ east ∧
  RibPolicyStatement.applyAction east route_192_168 =
    Some (true, {| prefix := prefix route_192_168;
                   nexthops := reweighted east_only (nexthops route_192_168) |}) ∧
  reweighted east_only (nexthops route_192_168) =
    {[ {| thrift.address := "fe80::1"%string; thrift.weight := 10;
          thrift.area := Some "east"%string |} ]} ∧
  {| thrift.address := "fe80::2"%string; thrift.weight := 0;
     thrift.area := Some "west"%string |} ∉ reweighted east_only (nexthops route_192_168).
Proof.
  assert (RibPolicyStatement.RibPolicyStatement toIPNetwork stmt_east = Ok east) as Hc
    by (vm_compute; reflexivity).
  assert (prefix route_192_168 ∈ RibPolicyStatement.prefixSet_ east) as Hin
    by (apply elem_of_singleton; reflexivity).
  split; [exact Hc|]. split; [exact Hin|].
  destruct (applyAction_reweighs_matching_route toIPNetwork stmt_east east
              route_192_168 Hc Hin) as (w & Hw & Happly & Hchar & _ & _ & Hzero & _).
  injection Hw as <-. split; [exact Happly|]. split.
  - apply set_eq. intros x. rewrite Hchar, elem_of_singleton. split.
    + intros (nh & Hnh & Hpos & ->). simpl in Hnh.
      apply elem_of_union in Hnh as [->%elem_of_singleton| ->%elem_of_singleton].
      * reflexivity.
      * exfalso. revert Hpos. vm_compute. discriminate.
    + intros ->. exists nh_east. split; [|split; reflexivity].
      simpl. apply elem_of_union. left. apply elem_of_singleton. reflexivity.
  - apply (Hzero nh_west). reflexivity.
Defined.

(** The statement [east] on a route it does not match. *)
Lemma applyAction_frame_at_subnet :
  RibPolicyStatement.RibPolicyStatement toIPNetwork stmt_east = Ok east ∧
  ∃ b route',
    RibPolicyStatement.applyAction east route_192_168_1 = Some (b, route') ∧
    prefix route' = prefix route_192_168_1 ∧
    (prefix route_192_168_1 ∉ RibPolicyStatement.prefixSet_ east →
     b = false ∧ route' = route_192_168_1).
Proof.
  assert (RibPolicyStatement.RibPolicyStatement toIPNetwork stmt_east = Ok east) as Hc
    by (vm_compute; reflexivity).
  split; [exact Hc|].
  exact (applyAction_frame toIPNetwork stmt_east east route_192_168_1 Hc).
Defined.

(** Both statements of [installed_30s] match the route; the first one
    decides. *)
Lemma applyAction_first_match_wins_at_installed_30s :
  RibPolicy.RibPolicy toIPNetwork 0 policy_30s = Ok installed_30s ∧
  RibPolicyStatement.match_ flat route_192_168 = true ∧
  RibPolicy.applyAction installed_30s route_192_168 =
    RibPolicyStatement.applyAction east route_192_168.
Proof.
  assert (RibPolicy.RibPolicy toIPNetwork 0 policy_30s = Ok installed_30s) as Hc
    by (vm_compute; reflexivity).
  split; [exact Hc|]. split; [vm_compute; reflexivity|].
  destruct (applyAction_first_match_wins toIPNetwork 0 policy_30s installed_30s
              route_192_168 Hc) as (b & route' & Happly & _ & _ & _ & Hfirst).
  destruct (Hfirst [] east [flat]) as (-> & Heast & _).
  - reflexivity.
  - intros s' Hs'. by apply elem_of_nil in Hs'.
  - vm_compute. reflexivity.
  - rewrite Happly, Heast. reflexivity.
Defined.

(** The constructors on definitions of the instance. *)
Lemma construction_throws_exactly_for_missing_fields_at_ipv4 :
  throws (RibPolicyStatement.RibPolicyStatement toIPNetwork stmt_east) = false ∧
  RibPolicy.RibPolicy toIPNetwork 0
    {| thrift.statements := []; thrift.ttl_secs := 30 |} =
    Throw {| thrift.message := "Missing policy.statements attribute" |}.
Proof.
  destruct (construction_throws_exactly_for_missing_fields toIPNetwork)
    as (Hstmt & _ & _ & Hempty & _).
  split.
  - apply not_true_iff_false. intros [Hw|Hp]%Hstmt; discriminate.
  - apply Hempty. reflexivity.
Defined.

(** C8, counterexample: a definition whose prefix list is present and
    empty constructs, and the statement has an empty prefix set. *)
Lemma empty_prefix_list_constructs :
  thrift.prefixes (thrift.matcher stmt_no_prefix) = Some [] ∧
  RibPolicyStatement.RibPolicyStatement toIPNetwork stmt_no_prefix = Ok matches_nothing ∧
  throws (RibPolicyStatement.RibPolicyStatement toIPNetwork stmt_no_prefix) = false ∧
  RibPolicyStatement.prefixSet_ matches_nothing = ∅.
Proof. repeat split; vm_compute; reflexivity. Qed.

Lemma statement_requires_prefixes_field_at_no_prefix :
  thrift.set_weight (thrift.action stmt_no_prefix) = Some flat_one ∧
  ∃ stmt,
    RibPolicyStatement.RibPolicyStatement toIPNetwork stmt_no_prefix = Ok stmt ∧
    RibPolicyStatement.prefixSet_ stmt = ∅ ∧
    RibPolicyStatement.match_ stmt route_192_168 = false.
Proof.
  assert (thrift.set_weight (thrift.action stmt_no_prefix) = Some flat_one) as Hw
    by reflexivity.
  split; [exact Hw|].
  destruct (statement_requires_prefixes_field (Addr := string) toIPNetwork
              stmt_no_prefix flat_one Hw) as (_ & _ & Hempty).
  destruct (Hempty eq_refl) as (stmt & Hc & Hset & Hmatch).
  exists stmt. split; [exact Hc|]. split; [exact Hset|]. apply Hmatch.
Defined.

(** C4, counterexample: half a millisecond before [validUntil] the
    policy is not active, although [validUntil] is strictly after the
    current instant. *)
Lemma isActive_false_in_last_millisecond :
  RibPolicy.RibPolicy toIPNetwork 0 policy_30s = Ok installed_30s ∧
  29999500000 < RibPolicy.validUntilTs_ installed_30s ∧
  RibPolicy.isActive installed_30s 29999500000 = false ∧
  ¬ (RibPolicy.isActive installed_30s 29999500000 = true ↔
     29999500000 < RibPolicy.validUntilTs_ installed_30s).
Proof.
  split; [vm_compute; reflexivity|]. split; [reflexivity|]. split; [reflexivity|].
  intros [_ Hback]. discriminate Hback. reflexivity.
Qed.

Lemma isActive_iff_a_millisecond_left_at_installed_30s :
  RibPolicy.isActive installed_30s 29999000000 = true ∧
  RibPolicy.isActive installed_30s 29999000001 = false.
Proof.
  destruct (isActive_iff_a_millisecond_left installed_30s 29999000000) as (Hon & _).
  destruct (isActive_iff_a_millisecond_left installed_30s 29999000001) as (Hoff & _).
  split.
  - apply Hon. vm_compute. discriminate.
  - apply not_true_iff_false. intros Ha%Hoff.
    revert Ha. vm_compute. intros Ha. apply Ha. reflexivity.
Defined.

(** C9, counterexample: half a millisecond before [validUntil] the
    returned duration is zero and not the exact difference; half a
    millisecond after [validUntil] it is zero and not negative; and it is
    the same at two successive clock readings. *)
Lemma getTtlDuration_not_exact :
  RibPolicy.RibPolicy toIPNetwork 0 policy_30s = Ok installed_30s ∧
  (RibPolicy.validUntilTs_ installed_30s - 29999500000 = 500000 ∧
   RibPolicy.getTtlDuration installed_30s 29999500000 = 0 ∧
   RibPolicy.getTtlDuration installed_30s 29999500000 * ticks_per_millisecond ≠
     RibPolicy.validUntilTs_ installed_30s - 29999500000) ∧
  (RibPolicy.validUntilTs_ installed_30s < 30000500000 ∧
   ¬ RibPolicy.getTtlDuration installed_30s 30000500000 < 0) ∧
  (29999500000 < 29999500001 ∧
   ¬ RibPolicy.getTtlDuration installed_30s 29999500001 <
     RibPolicy.getTtlDuration installed_30s 29999500000).
Proof.
  split; [vm_compute; reflexivity|].
  repeat split; try reflexivity; vm_compute; discriminate.
Qed.

Lemma getTtlDuration_truncates_to_milliseconds_at_installed_30s :
  RibPolicy.getTtlDuration installed_30s 29999500000 = 0 ∧
  RibPolicy.getTtlDuration installed_30s 31000000000 = -1000 ∧
  RibPolicy.getTtlDuration installed_30s 30000000000 ≤
    RibPolicy.getTtlDuration installed_30s 29999500000.
Proof.
  destruct (getTtlDuration_truncates_to_milliseconds installed_30s 29999500000)
    as (Hearly & _ & _ & _ & Hmono & _).
  destruct (getTtlDuration_truncates_to_milliseconds installed_30s 31000000000)
    as (Hlate & _).
  split; [rewrite Hearly; reflexivity|].
  split; [rewrite Hlate; reflexivity|].
  apply Hmono. vm_compute. discriminate.
Defined.

(** C5, counterexample: serialized one and two nanoseconds after the
    construction, the policy carries the same [ttl_secs]; and a policy
    constructed with the least [ttl_secs] of the field, serialized one
    second later, carries 2147483647 where -2147483649 seconds remain. *)
Lemma toThrift_same_ttl_at_two_instants :
  RibPolicy.RibPolicy toIPNetwork 0 policy_30s = Ok installed_30s ∧
  (1 : Z) ≠ 2 ∧
  thrift.ttl_secs (RibPolicy.toThrift toIpPrefix installed_30s 1) = 29 ∧
  thrift.ttl_secs (RibPolicy.toThrift toIpPrefix installed_30s 2) = 29 ∧
  RibPolicy.RibPolicy toIPNetwork 0 policy_min_ttl = Ok installed_min_ttl ∧
  (RibPolicy.validUntilTs_ installed_min_ttl - 1000000000) ÷ ticks_per_second =
    -2147483649 ∧
  thrift.ttl_secs (RibPolicy.toThrift toIpPrefix installed_min_ttl 1000000000) =
    2147483647.
Proof.
  split; [vm_compute; reflexivity|]. split; [discriminate|].
  split; [reflexivity|]. split; [reflexivity|].
  split; [vm_compute; reflexivity|]. split; reflexivity.
Qed.

Lemma toThrift_emits_remaining_ttl_at_installed_30s :
  thrift.ttl_secs (RibPolicy.toThrift toIpPrefix installed_30s 2500000000) = 27 ∧
  thrift.statements (RibPolicy.toThrift toIpPrefix installed_30s 2500000000) =
    [RibPolicyStatement.toThrift toIpPrefix east;
     RibPolicyStatement.toThrift toIpPrefix flat] ∧
  thrift.ttl_secs (RibPolicy.toThrift toIpPrefix installed_30s 4500000000) <
    thrift.ttl_secs (RibPolicy.toThrift toIpPrefix installed_30s 2500000000).
Proof.
  destruct (toThrift_emits_remaining_ttl toIpPrefix installed_30s 2500000000)
    as (_ & Httl & Hstmts & _ & _ & Hapart).
  split; [rewrite Httl; [reflexivity|vm_compute; split; [discriminate|reflexivity]]|].
  split; [rewrite Hstmts; reflexivity|].
  apply Hapart.
  - vm_compute. discriminate.
  - vm_compute; split; [discriminate|reflexivity].
  - vm_compute; split; [discriminate|reflexivity].
Defined.

(** A definition with a negative [ttl_secs] constructs, expired. *)
Lemma construction_ignores_ttl_at_policy_expired :
  thrift.statements policy_expired ≠ [] ∧
  (∀ sdef, sdef ∈ thrift.statements policy_expired →
           throws (RibPolicyStatement.RibPolicyStatement toIPNetwork sdef) = false) ∧
  thrift.ttl_secs policy_expired ≤ 0 ∧
  ∃ p,
    RibPolicy.RibPolicy toIPNetwork 0 policy_expired = Ok p ∧
    RibPolicy.validUntilTs_ p ≤ 0 ∧
    RibPolicy.isActive p 0 = false.
Proof.
  assert (thrift.statements policy_expired ≠ []) as Hne by discriminate.
  assert (∀ sdef, sdef ∈ thrift.statements policy_expired →
            throws (RibPolicyStatement.RibPolicyStatement toIPNetwork sdef) = false)
    as Hall.
  { intros sdef Hin. apply list_elem_of_singleton in Hin as ->. reflexivity. }
  assert (thrift.ttl_secs policy_expired ≤ 0) as Httl by (vm_compute; discriminate).
  split; [exact Hne|]. split; [exact Hall|]. split; [exact Httl|].
  destruct (construction_ignores_ttl toIPNetwork 0 policy_expired Hne Hall)
    as (p & Hp & _ & Hexpired).
  destruct (Hexpired Httl) as (Hle & Hinactive).
  exists p. split; [exact Hp|]. split; [exact Hle|].
  apply Hinactive. reflexivity.
Defined.

(** [installed_30s] serialized 2.5 s after its construction and
    constructed again at 7 s. *)
Lemma construct_serialize_construct_at_installed_30s :
  (∀ tPrefix, toIPNetwork (toIpPrefix (toIPNetwork tPrefix)) = toIPNetwork tPrefix) ∧
  RibPolicy.RibPolicy toIPNetwork 0 policy_30s = Ok installed_30s ∧
  ∃ p',
    RibPolicy.RibPolicy toIPNetwork 7000000000
      (RibPolicy.toThrift toIpPrefix installed_30s 2500000000) = Ok p' ∧
    RibPolicy.policyStatements_ p' = [east; flat] ∧
    RibPolicy.validUntilTs_ p' = 34000000000.
Proof.
  assert (RibPolicy.RibPolicy toIPNetwork 0 policy_30s = Ok installed_30s) as Hc
    by (vm_compute; reflexivity).
  split; [exact ipv4_toIPNetwork_toIpPrefix|]. split; [exact Hc|].
  destruct (construct_serialize_construct toIPNetwork toIpPrefix
              ipv4_toIPNetwork_toIpPrefix 0 2500000000 7000000000
              policy_30s installed_30s Hc) as (p' & Hp' & Hss & _ & _ & _ & Hv).
  exists p'. split; [exact Hp'|]. split; [exact Hss|].
  rewrite Hv; [reflexivity|]. vm_compute. split; [discriminate|reflexivity].
Defined.

End ipv4_instances.

(** ** The IPv4 instance: the further properties at work *)

Section ipv4_more.
Import ipv4.

Lemma match_iff_listed_prefix_at_east :
  constructed toIPNetwork stmt_east east ∧
  RibPolicyStatement.match_ east route_192_168 = true ∧
  RibPolicyStatement.match_ east route_192_168_1 = false.
Proof.
  assert (constructed toIPNetwork stmt_east east) as Hc by exact construct_east.
  split; [exact Hc|].
  destruct (match_iff_listed_prefix toIPNetwork stmt_east east route_192_168 Hc)
    as (l & Hl & Hyes).
  destruct (match_iff_listed_prefix toIPNetwork stmt_east east route_192_168_1 Hc)
    as (l' & Hl' & Hno).
  injection Hl as <-. injection Hl' as <-. split.
  - apply Hyes. exists net_192_168. split; [by left|reflexivity].
  - apply not_true_iff_false. intros (t & Ht & Heq)%Hno.
    apply list_elem_of_singleton in Ht as ->. discriminate Heq.
Defined.

Lemma policy_match_iff_listed_prefix_at_installed_30s :
  RibPolicy.RibPolicy toIPNetwork 0 policy_30s = Ok installed_30s ∧
  RibPolicy.match_ installed_30s
    {| prefix := toIPNetwork net_10; nexthops := {[ nh_east ]} |} = true.
Proof.
  assert (RibPolicy.RibPolicy toIPNetwork 0 policy_30s = Ok installed_30s) as Hc
    by exact construct_installed_30s.
  split; [exact Hc|].
  apply (policy_match_iff_listed_prefix (Addr := string) toIPNetwork 0 policy_30s
           installed_30s _ Hc).
  exists stmt_flat, [net_192_168; net_10], net_10.
  split; [right; by left|]. split; [reflexivity|]. split; [right; by left|reflexivity].
Defined.

Lemma statement_ignores_prefix_order_at_flat :
  thrift.name stmt_flat = thrift.name stmt_flat_reordered ∧
  thrift.action stmt_flat = thrift.action stmt_flat_reordered ∧
  RibPolicyStatement.RibPolicyStatement toIPNetwork stmt_flat =
  RibPolicyStatement.RibPolicyStatement toIPNetwork stmt_flat_reordered.
Proof.
  split; [reflexivity|]. split; [reflexivity|].
  apply (statement_ignores_prefix_order toIPNetwork stmt_flat stmt_flat_reordered
           [net_192_168; net_10] [net_10; net_192_168; net_10]);
    try reflexivity.
  intros n. rewrite !list_elem_of_fmap. split; intros (t & -> & Ht); exists t;
    (split; [reflexivity|]); revert Ht; rewrite !elem_of_cons; tauto.
Defined.

Lemma toThrift_lists_the_prefix_set_at_twice :
  ∃ stmt out,
    constructed toIPNetwork stmt_flat_reordered stmt ∧
    thrift.prefixes (thrift.matcher (RibPolicyStatement.toThrift toIpPrefix stmt)) =
      Some out ∧
    length out = 2%nat.
Proof.
  assert (constructed toIPNetwork stmt_flat_reordered flat) as Hc
    by (vm_compute; reflexivity).
  destruct (toThrift_lists_the_prefix_set toIPNetwork toIpPrefix
              stmt_flat_reordered flat Hc) as (l & out & _ & Hout & Hlen & _).
  exists flat, out. split; [exact Hc|]. split; [exact Hout|].
  rewrite Hlen. vm_compute. reflexivity.
Defined.

Lemma statement_applyAction_idempotent_at_east :
  constructed toIPNetwork stmt_east east ∧
  ∃ route',
    RibPolicyStatement.applyAction east route_192_168 = Some (true, route') ∧
    RibPolicyStatement.applyAction east route' = Some (true, route').
Proof.
  assert (constructed toIPNetwork stmt_east east) as Hc by exact construct_east.
  split; [exact Hc|]. eexists. split; [exact applyAction_east|].
  exact (statement_applyAction_idempotent toIPNetwork stmt_east east route_192_168
           _ _ Hc applyAction_east).
Defined.

Lemma applyAction_ignores_incoming_weights_at_east :
  constructed toIPNetwork stmt_east east ∧
  nexthops route_192_168 ≠ nexthops route_192_168_heavy ∧
  RibPolicyStatement.applyAction east route_192_168 =
  RibPolicyStatement.applyAction east route_192_168_heavy.
Proof.
  assert (constructed toIPNetwork stmt_east east) as Hc by exact construct_east.
  split; [exact Hc|]. split.
  { intros Heq. apply (f_equal elements) in Heq. vm_compute in Heq. discriminate Heq. }
  apply (applyAction_ignores_incoming_weights toIPNetwork stmt_east east
           route_192_168 route_192_168_heavy Hc).
  - apply elem_of_singleton. reflexivity.
  - reflexivity.
  - unfold route_192_168, route_192_168_heavy, nexthops.
    rewrite !set_map_union_L, !set_map_singleton_L. reflexivity.
Defined.

Lemma applyAction_withdraws_all_iff_at_east :
  constructed toIPNetwork stmt_east east ∧
  ∃ route',
    RibPolicyStatement.applyAction east
      {| prefix := toIPNetwork net_192_168; nexthops := {[ nh_west ]} |} =
      Some (true, route') ∧
    nexthops route' = ∅.
Proof.
  assert (constructed toIPNetwork stmt_east east) as Hc by exact construct_east.
  split; [exact Hc|].
  destruct (applyAction_withdraws_all_iff toIPNetwork stmt_east east
              {| prefix := toIPNetwork net_192_168; nexthops := {[ nh_west ]} |}
              east_only Hc eq_refl) as (route' & Happly & Hempty).
  { apply elem_of_singleton. reflexivity. }
  exists route'. split; [exact Happly|]. apply Hempty.
  intros nh Hnh. simpl in Hnh. apply elem_of_singleton in Hnh as ->.
  vm_compute. discriminate.
Defined.

Lemma policy_applyAction_idempotent_at_installed_30s :
  RibPolicy.RibPolicy toIPNetwork 0 policy_30s = Ok installed_30s ∧
  ∃ route',
    RibPolicy.applyAction installed_30s route_192_168 = Some (true, route') ∧
    RibPolicy.applyAction installed_30s route' = Some (true, route').
Proof.
  assert (RibPolicy.RibPolicy toIPNetwork 0 policy_30s = Ok installed_30s) as Hc
    by exact construct_installed_30s.
  assert (RibPolicy.applyAction installed_30s route_192_168 =
          Some (true, {| prefix := prefix route_192_168;
                         nexthops := {[ thrift.with_weight nh_east 10 ]} |})) as Happly
    by (vm_compute; reflexivity).
  split; [exact Hc|]. eexists. split; [exact Happly|].
  exact (policy_applyAction_idempotent toIPNetwork 0 policy_30s installed_30s
           route_192_168 _ _ Hc Happly).
Defined.

Lemma policy_applyAction_result_at_installed_30s :
  RibPolicy.RibPolicy toIPNetwork 0 policy_30s = Ok installed_30s ∧
  ∃ route',
    RibPolicy.applyAction installed_30s route_192_168_heavy = Some (true, route') ∧
    prefix route' = prefix route_192_168_heavy ∧
    ∀ x, x ∈ nexthops route' → 0 < thrift.weight x.
Proof.
  assert (RibPolicy.RibPolicy toIPNetwork 0 policy_30s = Ok installed_30s) as Hc
    by exact construct_installed_30s.
  assert (RibPolicy.applyAction installed_30s route_192_168_heavy =
          Some (true, {| prefix := prefix route_192_168_heavy;
                         nexthops := {[ thrift.with_weight nh_east 10 ]} |})) as Happly
    by (vm_compute; reflexivity).
  split; [exact Hc|]. eexists. split; [exact Happly|].
  destruct (policy_applyAction_result toIPNetwork 0 policy_30s installed_30s
              route_192_168_heavy _ _ Hc Happly) as (Hprefix & _ & _ & Hpos).
  split; [exact Hprefix|]. apply Hpos. reflexivity.
Defined.

Lemma serialized_policy_constructs_at_installed_30s :
  RibPolicy.RibPolicy toIPNetwork 0 policy_30s = Ok installed_30s ∧
  throws (RibPolicy.RibPolicy toIPNetwork 40000000000
            (RibPolicy.toThrift toIpPrefix installed_30s 29500000000)) = false.
Proof.
  assert (RibPolicy.RibPolicy toIPNetwork 0 policy_30s = Ok installed_30s) as Hc
    by exact construct_installed_30s.
  split; [exact Hc|].
  destruct (serialized_policy_constructs toIPNetwork toIpPrefix 0 29500000000
              40000000000 policy_30s installed_30s Hc) as (p' & Hp' & _).
  rewrite Hp'. reflexivity.
Defined.

Lemma construct_serialize_keeps_names_and_actions_at_installed_30s :
  RibPolicy.RibPolicy toIPNetwork 0 policy_30s = Ok installed_30s ∧
  Forall2 (λ sdef out,
             thrift.name out = thrift.name sdef ∧
             thrift.action out = thrift.action sdef ∧
             thrift.prefixes (thrift.matcher out) ≠ None)
          [stmt_east; stmt_flat]
          (thrift.statements (RibPolicy.toThrift toIpPrefix installed_30s 5)).
Proof.
  assert (RibPolicy.RibPolicy toIPNetwork 0 policy_30s = Ok installed_30s) as Hc
    by exact construct_installed_30s.
  split; [exact Hc|].
  exact (construct_serialize_keeps_names_and_actions toIPNetwork toIpPrefix 0 5
           policy_30s installed_30s Hc).
Defined.

Lemma constructed_policy_active_window_at_installed_30s :
  RibPolicy.RibPolicy toIPNetwork 0 policy_30s = Ok installed_30s ∧
  1 ≤ thrift.ttl_secs policy_30s ∧
  RibPolicy.isActive installed_30s 0 = true.
Proof.
  assert (RibPolicy.RibPolicy toIPNetwork 0 policy_30s = Ok installed_30s) as Hc
    by exact construct_installed_30s.
  assert (1 ≤ thrift.ttl_secs policy_30s) as Httl by (vm_compute; discriminate).
  split; [exact Hc|]. split; [exact Httl|].
  destruct (constructed_policy_active_window toIPNetwork 0 policy_30s installed_30s Hc)
    as (_ & Hstart & _).
  exact (Hstart Httl).
Defined.

Lemma ttl_at_construction_instant_at_installed_30s :
  RibPolicy.RibPolicy toIPNetwork 0 policy_30s = Ok installed_30s ∧
  RibPolicy.getTtlDuration installed_30s 0 = 30000 ∧
  thrift.ttl_secs (RibPolicy.toThrift toIpPrefix installed_30s 0) = 30.
Proof.
  assert (RibPolicy.RibPolicy toIPNetwork 0 policy_30s = Ok installed_30s) as Hc
    by exact construct_installed_30s.
  split; [exact Hc|].
  destruct (ttl_at_construction_instant toIPNetwork toIpPrefix 0 policy_30s
              installed_30s Hc) as (Hms & Hfield).
  destruct Hfield as (Hs & _); [vm_compute; split; [discriminate|reflexivity]|].
  split; [rewrite Hms; reflexivity|rewrite Hs; reflexivity].
Defined.


Lemma serialized_ttl_and_isActive_at_installed_30s :
  in_int32 ((RibPolicy.validUntilTs_ installed_30s - 2500000000) ÷ ticks_per_second) ∧
  1 ≤ thrift.ttl_secs (RibPolicy.toThrift toIpPrefix installed_30s 2500000000) ∧
  RibPolicy.isActive installed_30s 2500000000 = true.
Proof.
  assert (in_int32 ((RibPolicy.validUntilTs_ installed_30s - 2500000000)
                    ÷ ticks_per_second)) as Hfit
    by (vm_compute; split; [discriminate|reflexivity]).
  assert (1 ≤ thrift.ttl_secs (RibPolicy.toThrift toIpPrefix installed_30s 2500000000))
    as Httl by (vm_compute; discriminate).
  split; [exact Hfit|]. split; [exact Httl|].
  destruct (serialized_ttl_and_isActive toIpPrefix installed_30s 2500000000 Hfit)
    as (Hactive & _).
  exact (Hactive Httl).
Defined.

End ipv4_more.
